(** * edtf-converter: the EDTF validation, parsing and date-range engine

    A shallow embedding of [src/edtf-converter.ts] (class [Converter]) and of
    the parts of the JavaScript runtime, of lodash and of Moment.js that the
    class calls, followed by the properties of the converter.

    Layout: the definitions come first (strings, regular expressions, the
    Moment.js model, the lodash helpers, the converter), the lemmas and the
    theorems about the converter follow. *)

From Stdlib Require Import ZArith NArith List String Ascii Bool Lia.
Import ListNotations.

Local Open Scope Z_scope.

(* ================================================================== *)
(** * JavaScript strings *)
(* ================================================================== *)

(** A JavaScript string is a sequence of UTF-16 code units; a code unit is
    kept as a number. *)
Module JsString.

Definition jschar : Type := N.
Definition jsstring : Type := list jschar.

(** Code unit of a character of the source text. *)
Definition ch (a : ascii) : jschar := N_of_ascii a.

(** String literal of the source text. *)
Definition js (s : string) : jsstring := List.map ch (list_ascii_of_string s).

Definition jschar_eqb (a b : jschar) : bool := N.eqb a b.

Fixpoint jsstring_eqb (a b : jsstring) : bool :=
  match a, b with
  | [], [] => true
  | x :: a', y :: b' => jschar_eqb x y && jsstring_eqb a' b'
  | _, _ => false
  end.

(** [String.prototype.split] with a one-character separator: the pieces
    between the separators, in order.  The array is never empty (a string
    without separator is one piece, the empty string is one empty piece), so
    it is kept as its entry 0 and the list of the entries from 1 on. *)
Fixpoint split (sep : jschar) (s : jsstring) : jsstring * list jsstring :=
  match s with
  | [] => ([], [])
  | c :: s' =>
      let '(piece, pieces) := split sep s' in
      if jschar_eqb c sep then ([], piece :: pieces) else (c :: piece, pieces)
  end.

(** [Array.prototype.join]: an absent entry ([undefined], [null]) is joined
    as the empty string. *)
Fixpoint join (sep : jsstring) (parts : list (option jsstring)) : jsstring :=
  match parts with
  | [] => []
  | [p] => match p with Some s => s | None => [] end
  | p :: rest => (match p with Some s => s | None => [] end) ++ sep ++ join sep rest
  end.

(** Truthiness of a string value: every string but the empty one. *)
Definition truthy (s : jsstring) : bool :=
  match s with [] => false | _ :: _ => true end.

End JsString.
Import JsString.

(* ================================================================== *)
(** * Regular expressions *)
(* ================================================================== *)

(** The fragment of the pattern language that the converter uses: character
    classes, concatenation, alternation, [?], [*] and [{n}], with [^] and [$]
    only at the two ends of a pattern. [RegExp.prototype.test] is language
    membership, decided here by derivatives. *)
Module Regex.

Inductive regex : Type :=
| Void
| Eps
| Cls (p : jschar -> bool)
| Cat (r1 r2 : regex)
| Alt (r1 r2 : regex)
| Star (r : regex).

(** Character classes. *)
Definition only (a : ascii) : jschar -> bool := fun c => jschar_eqb c (ch a).
Definition between (lo hi : ascii) : jschar -> bool :=
  fun c => (N.leb (ch lo) c && N.leb c (ch hi))%bool.
Definition one_of (cs : string) : jschar -> bool :=
  fun c => existsb (jschar_eqb c) (js cs).
Definition either (p q : jschar -> bool) : jschar -> bool :=
  fun c => (p c || q c)%bool.
Definition any : jschar -> bool := fun _ => true.

(** The class [\s]: the WhiteSpace and LineTerminator code units of
    ECMAScript. *)
Definition white_space : jschar -> bool :=
  fun c =>
    ((N.leb 9 c && N.leb c 13)        (* \t \n \v \f \r *)
     || N.eqb c 32                    (* space *)
     || N.eqb c 160                   (* no-break space *)
     || N.eqb c 5760                  (* U+1680 *)
     || (N.leb 8192 c && N.leb c 8202) (* U+2000 .. U+200A *)
     || N.eqb c 8232 || N.eqb c 8233  (* U+2028, U+2029 *)
     || N.eqb c 8239                  (* U+202F *)
     || N.eqb c 8287                  (* U+205F *)
     || N.eqb c 12288                 (* U+3000 *)
     || N.eqb c 65279)%bool.          (* U+FEFF *)

(** Derived forms. *)
Definition Chr (a : ascii) : regex := Cls (only a).
Definition Opt (r : regex) : regex := Alt r Eps.
Fixpoint Seq (rs : list regex) : regex :=
  match rs with
  | [] => Eps
  | [r] => r
  | r :: rs' => Cat r (Seq rs')
  end.
Fixpoint Rep (n : nat) (r : regex) : regex :=
  match n with
  | O => Eps
  | S O => r
  | S n' => Cat r (Rep n' r)
  end.

(** Does the expression accept the empty string? *)
Fixpoint nullable (r : regex) : bool :=
  match r with
  | Void => false
  | Eps => true
  | Cls _ => false
  | Cat r1 r2 => nullable r1 && nullable r2
  | Alt r1 r2 => nullable r1 || nullable r2
  | Star _ => true
  end.

(** Constructors that drop the dead branches of a derivative. *)
Definition cat (r1 r2 : regex) : regex :=
  match r1, r2 with
  | Void, _ => Void
  | _, Void => Void
  | Eps, _ => r2
  | _, _ => Cat r1 r2
  end.

Definition alt (r1 r2 : regex) : regex :=
  match r1, r2 with
  | Void, _ => r2
  | _, Void => r1
  | _, _ => Alt r1 r2
  end.

(** Derivative: what is left to match once the code unit [c] is read. *)
Fixpoint deriv (c : jschar) (r : regex) : regex :=
  match r with
  | Void => Void
  | Eps => Void
  | Cls p => if p c then Eps else Void
  | Cat r1 r2 =>
      if nullable r1 then alt (cat (deriv c r1) r2) (deriv c r2)
      else cat (deriv c r1) r2
  | Alt r1 r2 => alt (deriv c r1) (deriv c r2)
  | Star r1 => cat (deriv c r1) (Star r1)
  end.

(** The whole string is matched. *)
Fixpoint accepts (r : regex) (s : jsstring) : bool :=
  match s with
  | [] => nullable r
  | c :: s' => accepts (deriv c r) s'
  end.

(** The language of an expression. *)
Inductive Matches : regex -> jsstring -> Prop :=
| MEps : Matches Eps []
| MCls (p : jschar -> bool) (c : jschar) : p c = true -> Matches (Cls p) [c]
| MCat (r1 r2 : regex) (s1 s2 : jsstring) :
    Matches r1 s1 -> Matches r2 s2 -> Matches (Cat r1 r2) (s1 ++ s2)
| MAltL (r1 r2 : regex) (s : jsstring) : Matches r1 s -> Matches (Alt r1 r2) s
| MAltR (r1 r2 : regex) (s : jsstring) : Matches r2 s -> Matches (Alt r1 r2) s
| MStarNil (r : regex) : Matches (Star r) []
| MStarCons (r : regex) (s1 s2 : jsstring) :
    Matches r s1 -> Matches (Star r) s2 -> Matches (Star r) (s1 ++ s2).

(** A pattern: its body, and whether it is written between [^] and [$].
    Without [^] a match may start anywhere, without [$] it may end
    anywhere. *)
Record RegExp : Type := mkRegExp {
  anchoredStart : bool;
  body : regex;
  anchoredEnd : bool
}.

Definition searched (re : RegExp) : regex :=
  Cat (if anchoredStart re then Eps else Star (Cls any))
      (Cat (body re) (if anchoredEnd re then Eps else Star (Cls any))).

(** [RegExp.prototype.test] on a pattern object that is fresh at the call
    (a literal, or [new RegExp]): is there a match in the string? *)
Definition test (re : RegExp) (s : jsstring) : bool := accepts (searched re) s.

(** [String.prototype.replace(/[class]/g, '')]: delete every code unit of
    the class. *)
Definition remove_all (p : jschar -> bool) (s : jsstring) : jsstring :=
  filter (fun c => negb (p c)) s.

End Regex.
Import Regex.

(* ================================================================== *)
(** * Moment.js dates in UTC *)
(* ================================================================== *)

(** The part of Moment.js (and of the [Date] object under it) that
    [parseEdtf] calls: [moment.utc(text, format)], [add], [subtract],
    [startOf], [endOf], and the comparison of two instants.  A valid moment
    is kept as its UTC calendar fields; its time value, the number of
    milliseconds since 1970-01-01T00:00:00Z, is computed from them as
    ECMAScript's [MakeDay] and [MakeDate] do. *)
Module Moment.

Inductive Format : Type := YYYY | YYYY_MM | YYYY_MM_DD.

Inductive unitOfTime : Type := year | month | day.

Record DateTime : Type := mkDateTime {
  utcFullYear : Z;   (* getUTCFullYear *)
  utcMonth : Z;      (* getUTCMonth, 0 .. 11 *)
  utcDate : Z;       (* getUTCDate, 1 .. 31 *)
  utcTime : Z        (* milliseconds since the start of the day *)
}.

(** An invalid moment wraps [new Date(NaN)]. *)
Inductive Moment : Type :=
| Invalid
| At (d : DateTime).

Definition msPerDay : Z := 86400000.

(** [isLeapYear] of Moment.js; [%] is the remainder of JavaScript. *)
Definition isLeapYear (y : Z) : bool :=
  ((Z.rem y 4 =? 0) && negb (Z.rem y 100 =? 0)) || (Z.rem y 400 =? 0).

(** [daysInMonth(year, month)] of Moment.js; the month may lie outside
    0 .. 11. *)
Definition daysInMonth (y m : Z) : Z :=
  let modMonth := m mod 12 in
  let y' := y + (m - modMonth) / 12 in
  if modMonth =? 1 then (if isLeapYear y' then 29 else 28)
  else 31 - Z.rem (Z.rem modMonth 7) 2.

(** ECMAScript [DayFromYear]: the day number of January 1st. *)
Definition DayFromYear (y : Z) : Z :=
  365 * (y - 1970) + (y - 1969) / 4 - (y - 1901) / 100 + (y - 1601) / 400.

(** Days of the year before the first of month [m] (0 .. 11). *)
Definition daysBeforeMonth (leap : bool) (m : Z) : Z :=
  let l := if leap then 1 else 0 in
  match m with
  | 0 => 0
  | 1 => 31
  | 2 => 59 + l
  | 3 => 90 + l
  | 4 => 120 + l
  | 5 => 151 + l
  | 6 => 181 + l
  | 7 => 212 + l
  | 8 => 243 + l
  | 9 => 273 + l
  | 10 => 304 + l
  | _ => 334 + l
  end.

(** ECMAScript [MakeDay(year, month, date)]. *)
Definition MakeDay (y m d : Z) : Z :=
  let ym := y + m / 12 in
  let mn := m mod 12 in
  DayFromYear ym + daysBeforeMonth (isLeapYear ym) mn + d - 1.

(** ECMAScript [MakeDate(day, time)] on the fields. *)
Definition timeValue (d : DateTime) : Z :=
  MakeDay (utcFullYear d) (utcMonth d) (utcDate d) * msPerDay + utcTime d.

(** ECMAScript [TimeClip]: a time value beyond 8.64e15 ms is [NaN]. *)
Definition timeClip (d : DateTime) : Moment :=
  if Z.abs (timeValue d) <=? 8640000000000000 then At d else Invalid.

(** [valueOf]: the time value, [None] for [NaN]. *)
Definition valueOf (m : Moment) : option Z :=
  match m with
  | Invalid => None
  | At d => Some (timeValue d)
  end.

Definition isValid (m : Moment) : bool :=
  match m with Invalid => false | At _ => true end.

(** [a <= b] on the time values; a comparison with [NaN] is false. *)
Definition le (a b : Moment) : Prop :=
  match valueOf a, valueOf b with
  | Some x, Some y => x <= y
  | _, _ => False
  end.

(** ** Parsing *)

Definition digit (c : jschar) : option Z :=
  if between "0" "9" c then Some (Z.of_N c - 48) else None.

(** [toInt] on a run of digits. *)
Fixpoint toIntFrom (acc : Z) (s : jsstring) : option Z :=
  match s with
  | [] => Some acc
  | c :: s' =>
      match digit c with
      | Some v => toIntFrom (10 * acc + v) s'
      | None => None
      end
  end.

Definition toInt (s : jsstring) : option Z :=
  match s with
  | [] => None
  | _ => toIntFrom 0 s
  end.

(** The year, month (from 0) and day that the tokens of the format read.
    The month defaults to 0 and the day to 1.  The texts that reach the
    parser are those the grammar lets through: [dddd], [dddd-dd],
    [dddd-dd-dd] (see [GrammarFacts.valid_clean]); any other text is
    outside what is modelled and counts as unparsed. *)
Definition parsedFields (input : jsstring) (f : Format) : option (Z * Z * Z) :=
  match f, input with
  | YYYY, [y1; y2; y3; y4] =>
      match toInt [y1; y2; y3; y4] with
      | Some y => Some (y, 0, 1)
      | None => None
      end
  | YYYY_MM, [y1; y2; y3; y4; s1; m1; m2] =>
      match toInt [y1; y2; y3; y4], toInt [m1; m2] with
      | Some y, Some m => if jschar_eqb s1 (ch "-") then Some (y, m - 1, 1) else None
      | _, _ => None
      end
  | YYYY_MM_DD, [y1; y2; y3; y4; s1; m1; m2; s2; d1; d2] =>
      match toInt [y1; y2; y3; y4], toInt [m1; m2], toInt [d1; d2] with
      | Some y, Some m, Some d =>
          if jschar_eqb s1 (ch "-") && jschar_eqb s2 (ch "-")
          then Some (y, m - 1, d) else None
      | _, _, _ => None
      end
  | _, _ => None
  end.

(** [checkOverflow]: a month outside 0 .. 11 or a day outside the month makes
    the moment invalid. *)
Definition overflows (y m d : Z) : bool :=
  (m <? 0) || (11 <? m) || (d <? 1) || (daysInMonth y m <? d).

(** [moment.utc(input, format)], forgiving mode. *)
Definition utc (input : jsstring) (f : Format) : Moment :=
  match parsedFields input f with
  | Some (y, m, d) =>
      if overflows y m d then Invalid
      else timeClip (mkDateTime y m d 0)
  | None => Invalid
  end.

(** ** Arithmetic *)

(** [setMonth(mom, mom.month() + n)]: the day is clamped to the length of
    the target month, then [Date.prototype.setUTCMonth] carries the month
    into the year. *)
Definition addMonths (n : Z) (d : DateTime) : Moment :=
  if n =? 0 then At d
  else
    let value := utcMonth d + n in
    let dayOfMonth := Z.min (utcDate d) (daysInMonth (utcFullYear d) value) in
    timeClip (mkDateTime (utcFullYear d + value / 12) (value mod 12)
                         dayOfMonth (utcTime d)).

Definition nextDay (d : DateTime) : DateTime :=
  if utcDate d <? daysInMonth (utcFullYear d) (utcMonth d)
  then mkDateTime (utcFullYear d) (utcMonth d) (utcDate d + 1) (utcTime d)
  else if utcMonth d <? 11
  then mkDateTime (utcFullYear d) (utcMonth d + 1) 1 (utcTime d)
  else mkDateTime (utcFullYear d + 1) 0 1 (utcTime d).

Definition prevDay (d : DateTime) : DateTime :=
  if 1 <? utcDate d
  then mkDateTime (utcFullYear d) (utcMonth d) (utcDate d - 1) (utcTime d)
  else if 0 <? utcMonth d
  then mkDateTime (utcFullYear d) (utcMonth d - 1)
                  (daysInMonth (utcFullYear d) (utcMonth d - 1)) (utcTime d)
  else mkDateTime (utcFullYear d - 1) 11 31 (utcTime d).

(** [Date.prototype.setUTCDate(date + n)]: the calendar date [n] days
    later (earlier for a negative [n]), reached one day at a time. *)
Definition shiftDays (n : Z) (d : DateTime) : DateTime :=
  if 0 <=? n then Nat.iter (Z.to_nat n) nextDay d
  else Nat.iter (Z.to_nat (- n)) prevDay d.

Definition addDays (n : Z) (d : DateTime) : Moment :=
  if n =? 0 then At d else timeClip (shiftDays n d).

(** [add(amount, unit)]: a duration of years is one of twelve times as many
    months; nothing is done to an invalid moment. *)
Definition add (amount : Z) (u : unitOfTime) (m : Moment) : Moment :=
  match m with
  | Invalid => Invalid
  | At d =>
      match u with
      | year => addMonths (12 * amount) d
      | month => addMonths amount d
      | day => addDays amount d
      end
  end.

Definition subtract (amount : Z) (u : unitOfTime) (m : Moment) : Moment :=
  add (- amount) u m.

(** [startOf(unit)]: the first millisecond of the unit. *)
Definition startOf (u : unitOfTime) (m : Moment) : Moment :=
  match m with
  | Invalid => Invalid
  | At d =>
      timeClip
        match u with
        | year => mkDateTime (utcFullYear d) 0 1 0
        | month => mkDateTime (utcFullYear d) (utcMonth d) 1 0
        | day => mkDateTime (utcFullYear d) (utcMonth d) (utcDate d) 0
        end
  end.

(** [endOf(unit)]: the last millisecond of the unit, one before the start
    of the next unit. *)
Definition endOf (u : unitOfTime) (m : Moment) : Moment :=
  match m with
  | Invalid => Invalid
  | At d =>
      timeClip
        match u with
        | year => mkDateTime (utcFullYear d) 11 31 (msPerDay - 1)
        | month =>
            mkDateTime (utcFullYear d) (utcMonth d)
                       (daysInMonth (utcFullYear d) (utcMonth d)) (msPerDay - 1)
        | day =>
            mkDateTime (utcFullYear d) (utcMonth d) (utcDate d) (msPerDay - 1)
        end
  end.

(** The fields name a day of the calendar and a time within it. *)
Definition wellFormed (d : DateTime) : Prop :=
  0 <= utcMonth d <= 11 /\
  1 <= utcDate d <= daysInMonth (utcFullYear d) (utcMonth d) /\
  0 <= utcTime d < msPerDay.

End Moment.
Import Moment.

(* ================================================================== *)
(** * lodash: the helpers of the locale merge *)
(* ================================================================== *)

(** The values that a locale pack holds under a key: a string, a list, or
    nothing ([undefined]). *)
Module Lodash.

#[warnings="-register-all"] Inductive JsValue : Type :=
| JsUndefined
| JsString (s : jsstring)
| JsArray (items : list JsValue).

Definition isArray (v : JsValue) : bool :=
  match v with JsArray _ => true | _ => false end.

Definition isString (v : JsValue) : bool :=
  match v with JsString _ => true | _ => false end.

Definition isUndefined (v : JsValue) : bool :=
  match v with JsUndefined => true | _ => false end.

(** [SameValueZero], the equality of [uniq]: strings by content, two array
    objects of a pack never the same object. *)
Definition sameValueZero (a b : JsValue) : bool :=
  match a, b with
  | JsUndefined, JsUndefined => true
  | JsString s, JsString t => jsstring_eqb s t
  | _, _ => false
  end.

Definition itemsOf (v : JsValue) : list JsValue :=
  match v with JsArray items => items | _ => [] end.

(** [_.zip(...arrays)]: the arguments that are not arrays are dropped; entry
    [i] of the result groups the entries [i] of the arrays, [undefined]
    where an array is shorter. *)
Definition zip (arrays : list JsValue) : list JsValue :=
  let groups := List.map itemsOf (filter isArray arrays) in
  let len := fold_right Nat.max O (List.map (@List.length JsValue) groups) in
  List.map (fun i => JsArray (List.map (fun g => nth i g JsUndefined) groups))
           (seq 0 len).

(** [_.flatten(array)]: one level. *)
Definition flatten (array : list JsValue) : list JsValue :=
  flat_map (fun v => match v with JsArray items => items | _ => [v] end) array.

(** [_.compact(array)]: the falsy entries, here [undefined] and the empty
    string, are dropped. *)
Definition isTruthy (v : JsValue) : bool :=
  match v with
  | JsUndefined => false
  | JsString s => truthy s
  | JsArray _ => true
  end.

Definition compact (array : list JsValue) : list JsValue := filter isTruthy array.

(** [_.uniq(array)]: the first occurrence of each entry, in order. *)
Definition uniq (array : list JsValue) : list JsValue :=
  fold_left
    (fun result v => if existsb (sameValueZero v) result then result else result ++ [v])
    array [].

(** A locale pack, kept as the list of its entries, each under the path of
    its key ([keywords.interval.delimiters], ...): lodash merges nested
    objects key by key, calling the same customizer at every key. *)
Definition JsObject : Type := list (jsstring * JsValue).

Fixpoint get (o : JsObject) (key : jsstring) : JsValue :=
  match o with
  | [] => JsUndefined
  | (k, v) :: o' => if jsstring_eqb k key then v else get o' key
  end.

Fixpoint assign (o : JsObject) (key : jsstring) (v : JsValue) : JsObject :=
  match o with
  | [] => [(key, v)]
  | (k, w) :: o' =>
      if jsstring_eqb k key then (k, v) :: o' else (k, w) :: assign o' key v
  end.

(** [_.mergeWith(object, ...sources, customizer)]: each key of each source,
    in order, is given the customizer's value, or the source's value when
    the customizer returns [undefined]. *)
Definition mergeWith (object : JsObject) (sources : list JsObject)
    (customizer : JsValue -> JsValue -> JsValue) : JsObject :=
  fold_left
    (fun obj source =>
       fold_left
         (fun obj' '(key, srcValue) =>
            let newValue := customizer (get obj' key) srcValue in
            assign obj' key (if isUndefined newValue then srcValue else newValue))
         source obj)
    sources object.

End Lodash.
Import Lodash.

(* ================================================================== *)
(** * The converter *)
(* ================================================================== *)

(** The class [Converter] of [edtf-converter.ts]: the constructor's merge of
    the locale packs, [validateEdtf], [parseEdtf], [edtfToDate] and
    [edtfToText].  ([textToEdtf] rests on [parseWords] and [preprocessText],
    whose source is in other files; it is not embedded.) *)
Module EdtfConverter.

(** ** Errors *)

(** [Error('Invalid EDTF: "<edtf>" is not EDTF compliant ...')]. *)
Inductive Error : Type :=
| InvalidEdtf (edtf : jsstring).

Inductive Result (A : Type) : Type :=
| Ok (a : A)
| Throw (e : Error).
Arguments Ok {A} a.
Arguments Throw {A} e.

Definition bind {A B : Type} (r : Result A) (k : A -> Result B) : Result B :=
  match r with
  | Ok a => k a
  | Throw e => Throw e
  end.

Notation "x <- r ;; k" := (bind r (fun x => k))
  (at level 61, r at next level, right associativity).

(** [array.map(f)] with a callback that may throw: the first error, in the
    order of the entries, ends the call. *)
Fixpoint mapM {A B : Type} (f : A -> Result B) (l : list A) : Result (list B) :=
  match l with
  | [] => Ok []
  | a :: l' => b <- f a ;; bs <- mapM f l' ;; Ok (b :: bs)
  end.

(** ** Interfaces *)

(** [modifierRegex] is kept as its [test]: the pattern has neither the flag
    [g] nor [y], so that a test does not depend on the tests before it. *)
Record ICustomModifier : Type := mkCustomModifier {
  keyword : jsstring;
  modifierRegex : jsstring -> bool;
  addModifierFn : jsstring -> jsstring;
  removeModifierFn : jsstring -> jsstring
}.

Record ApproximateVariance : Type := mkVariance {
  days : Z;
  months : Z;
  years : Z
}.

(** The options in force, after the setter has laid the given ones over
    [DEFAULT_OPTIONS]; the variances are integers. *)
Record IOptions : Type := mkOptions {
  approximateVariance : ApproximateVariance;
  customModifiers : list ICustomModifier;
  locales : list jsstring
}.

Definition DEFAULT_OPTIONS : IOptions :=
  {| approximateVariance := {| days := 3; months := 3; years := 3 |};
     customModifiers := [];
     locales := [js "en"] |}.

Record IEdtfPartResult : Type := mkPartResult {
  cleanEdtf : jsstring;
  detectedModifiers : list ICustomModifier;
  format : Format;
  hasOpenEnd : bool;
  hasOpenStart : bool;
  isApproximate : bool;
  isUncertain : bool;
  maxDate : Moment;
  minDate : Moment
}.

(** [secondaryPart] is [undefined] when the text has no [/]. *)
Record IParseEdtfResult : Type := mkParseResult {
  primaryPart : IEdtfPartResult;
  secondaryPart : option IEdtfPartResult
}.

(** [null] is [None]. *)
Record IDate : Type := mkDate {
  min : option Moment;
  max : option Moment
}.

(** The entries of the merged locale table that [edtfToText] reads:
    [keywords.interval.openEnd], [keywords.interval.openStart],
    [keywords.uncertain], [keywords.approximate], [dateFormats] and
    [keywords.interval.delimiters]. *)
Record LocaleData : Type := mkLocaleData {
  openEndKeywords : list jsstring;
  openStartKeywords : list jsstring;
  uncertainKeywords : list jsstring;
  approximateKeywords : list jsstring;
  dateFormats : list jsstring;
  delimiters : list jsstring
}.

(** An instance of the class. *)
Record Converter : Type := mkConverter {
  options : IOptions;
  localeData : LocaleData
}.

(** ** The constructor's merge of the locale packs *)

Definition localeCustomizer (objValue srcValue : JsValue) : JsValue :=
  if isArray objValue then JsArray (uniq (compact (flatten (zip [objValue; srcValue]))))
  else if isString objValue then JsArray [objValue; srcValue]
  else JsUndefined.

Definition mergeLocales (packs : list JsObject) : JsObject :=
  mergeWith [] packs localeCustomizer.

(** ** validateEdtfPart *)

Definition ws : regex := Star (Cls white_space).

(** [([?~%])] *)
Definition modifier : regex := Cls (one_of "?~%").

(** [[0-9]{4}(-(0[1-9]|1[0-2])(-([0-2][1-9]|3[0-1]))?)?] *)
Definition date : regex :=
  Seq [Rep 4 (Cls (between "0" "9"));
       Opt (Seq [Chr "-";
                 Alt (Seq [Chr "0"; Cls (between "1" "9")])
                     (Seq [Chr "1"; Cls (between "0" "2")]);
                 Opt (Seq [Chr "-";
                           Alt (Seq [Cls (between "0" "2"); Cls (between "1" "9")])
                               (Seq [Chr "3"; Cls (between "0" "1")])])])].

(** [(modifier?\s*date\s*modifier?)] *)
Definition edtfSection : regex := Seq [Opt modifier; ws; date; ws; Opt modifier].

(** [(\[(\s*\.\.)?)] *)
Definition openStart : regex := Seq [Chr "["; Opt (Seq [ws; Chr "."; Chr "."])].

(** [openEnd]: an optional [\.\.] with white space after it, then [\]]. *)
Definition openEnd : regex := Seq [Opt (Seq [Chr "."; Chr "."; ws]); Chr "]"].

(** [^\s*openStart?\s*edtfSection\s*(\/\s*edtfSection|openEnd?)?\s*$] *)
Definition edtfRegex : RegExp :=
  mkRegExp true
    (Seq [ws; Opt openStart; ws; edtfSection; ws;
          Opt (Alt (Seq [Chr "/"; ws; edtfSection]) (Opt openEnd));
          ws])
    true.

Definition validateEdtfPart (edtf : jsstring) : Result unit :=
  if test edtfRegex edtf then Ok tt else Throw (InvalidEdtf edtf).

(** ** validateEdtf *)

Definition validateEdtf (edtf : jsstring) : Result unit :=
  let '(first, rest) := split (ch "/") edtf in
  _ <- validateEdtfPart first ;;
  match rest with
  | second :: _ => if truthy second then validateEdtfPart second else Ok tt
  | [] => Ok tt
  end.

(** ** parseEdtf *)

(** [/[~%]/g] *)
Definition approximateRegex : RegExp := mkRegExp false (Cls (one_of "~%")) false.

(** [/[\?%]/g] *)
Definition uncertainRegex : RegExp := mkRegExp false (Cls (one_of "?%")) false.

(** [/^\[\s*\.\./] *)
Definition openStartRegex : RegExp :=
  mkRegExp true (Seq [Chr "["; ws; Chr "."; Chr "."]) false.

(** [/\.\.\s*]$/] *)
Definition openEndRegex : RegExp :=
  mkRegExp false (Seq [Chr "."; Chr "."; ws; Chr "]"]) true.

(** The class of [/[\[\.\[\]\?~%\s]/g]. *)
Definition modifierOrSpace : jschar -> bool := either (one_of "[.[]?~%") white_space.

(** The loop over [customModifiers]: a modifier whose pattern matches the
    current text is recorded and its marker removed before the next one is
    tried. *)
Definition detectCustomModifiers (mods : list ICustomModifier) (edtfPart : jsstring)
    : list ICustomModifier * jsstring :=
  fold_left
    (fun '(detected, part) m =>
       if modifierRegex m part then (detected ++ [m], removeModifierFn m part)
       else (detected, part))
    mods ([], edtfPart).

Definition formatOf (clean : jsstring) : Format :=
  if Nat.eqb (List.length clean) 4 then YYYY
  else if Nat.eqb (List.length clean) 7 then YYYY_MM
  else YYYY_MM_DD.

Definition unitOf (f : Format) : unitOfTime :=
  match f with
  | YYYY => year
  | YYYY_MM => month
  | YYYY_MM_DD => day
  end.

Definition varianceOf (o : IOptions) (f : Format) : Z :=
  match f with
  | YYYY => years (approximateVariance o)
  | YYYY_MM => months (approximateVariance o)
  | YYYY_MM_DD => days (approximateVariance o)
  end.

(** The callback of [edtfArray.map] in [parseEdtf]: one segment. *)
Definition parseEdtfPart (this : Converter) (edtfPart : jsstring)
    : Result IEdtfPartResult :=
  let '(detected, edtfPart) :=
    detectCustomModifiers (customModifiers (options this)) edtfPart in
  _ <- validateEdtfPart edtfPart ;;
  let approximate := test approximateRegex edtfPart in
  let uncertain := test uncertainRegex edtfPart in
  let openS := test openStartRegex edtfPart in
  let openE := test openEndRegex edtfPart in
  let clean := remove_all modifierOrSpace edtfPart in
  let fmt := formatOf clean in
  let unit := unitOf fmt in
  let variance := varianceOf (options this) fmt in
  let minD := utc clean fmt in
  let maxD := utc clean fmt in
  let minD := if approximate then subtract variance unit minD else minD in
  let maxD := if approximate then add variance unit maxD else maxD in
  Ok {| cleanEdtf := clean;
        detectedModifiers := detected;
        format := fmt;
        hasOpenEnd := openE;
        hasOpenStart := openS;
        isApproximate := approximate;
        isUncertain := uncertain;
        maxDate := endOf unit maxD;
        minDate := startOf unit minD |}.

Definition parseEdtf (this : Converter) (edtf : jsstring) : Result IParseEdtfResult :=
  let '(first, rest) := split (ch "/") edtf in
  primary <- parseEdtfPart this first ;;
  others <- mapM (parseEdtfPart this) rest ;;
  Ok {| primaryPart := primary; secondaryPart := hd_error others |}.

(** ** edtfToDate *)

Definition combine (parseResult : IParseEdtfResult) : IDate :=
  if hasOpenStart (primaryPart parseResult)
  then {| min := None; max := Some (maxDate (primaryPart parseResult)) |}
  else if hasOpenEnd (primaryPart parseResult)
  then {| min := Some (minDate (primaryPart parseResult)); max := None |}
  else
    {| min := Some (minDate (primaryPart parseResult));
       max := match secondaryPart parseResult with
              | Some secondary => Some (maxDate secondary)
              | None => Some (maxDate (primaryPart parseResult))
              end |}.

Definition edtfToDate (this : Converter) (edtf : jsstring) : Result IDate :=
  parseResult <- parseEdtf this edtf ;;
  Ok (combine parseResult).

(** ** edtfToText *)

(** [list[0]], [undefined] on an empty list. *)
Definition first {A : Type} (l : list A) : option A := hd_error l.

(** The text of one segment.  [momentFormat clean format template] stands
    for [moment(clean, format).format(template)]. *)
Definition partText
    (momentFormat : jsstring -> Format -> option jsstring -> jsstring)
    (this : Converter) (partResult : IEdtfPartResult) : jsstring :=
  let l := localeData this in
  let textArray :=
    List.map (fun m => Some (keyword m)) (detectedModifiers partResult)
    ++ (if hasOpenEnd partResult then [first (openEndKeywords l)] else [])
    ++ (if hasOpenStart partResult then [first (openStartKeywords l)] else [])
    ++ (if isUncertain partResult then [first (uncertainKeywords l)] else [])
    ++ (if isApproximate partResult then [first (approximateKeywords l)] else [])
    ++ [Some (momentFormat (cleanEdtf partResult) (format partResult)
                           (first (dateFormats l)))] in
  join (js " ") textArray.

Definition edtfToText
    (momentFormat : jsstring -> Format -> option jsstring -> jsstring)
    (this : Converter) (edtf : jsstring) : Result jsstring :=
  parseResult <- parseEdtf this edtf ;;
  let texts :=
    List.map
      (fun partResult =>
         match partResult with
         | None => None
         | Some p => Some (partText momentFormat this p)
         end)
      [Some (primaryPart parseResult); secondaryPart parseResult] in
  let kept :=
    filter (fun part => match part with Some t => truthy t | None => false end) texts in
  let delimiter :=
    match first (delimiters (localeData this)) with
    | Some d => d
    | None => js "undefined"
    end in
  Ok (join (js " " ++ delimiter ++ js " ") kept).

(** ** textToEdtf *)

(** [String.prototype.split(/\s/)]: the words between the white-space code
    units, one word (possibly empty) between any two of them. *)
Fixpoint splitWords (s : jsstring) : list jsstring :=
  match s with
  | [] => [[]]
  | c :: s' =>
      if white_space c then [] :: splitWords s'
      else match splitWords s' with
           | word :: words => (c :: word) :: words
           | [] => [[c]]
           end
  end.

(** [array.slice(1, -1)]: all but the first and the last entry. *)
Definition interior {A : Type} (l : list A) : list A := removelast (tl l).

(** [array.findIndex(f)]: the first index whose entry satisfies [f];
    [None] is the result -1. *)
Fixpoint findIndex {A : Type} (f : A -> bool) (l : list A) : option nat :=
  match l with
  | [] => None
  | a :: l' =>
      if f a then Some O
      else match findIndex f l' with
           | Some i => Some (S i)
           | None => None
           end
  end.

(** [array.includes(word)] on strings. *)
Definition includes (l : list jsstring) (word : jsstring) : bool :=
  existsb (jsstring_eqb word) l.

(** The hyphen, the en dash (U+2013) and the delimiters of the locale. *)
Definition intervalDelimiters (this : Converter) : list jsstring :=
  [js "-"; [8211%N]] ++ delimiters (localeData this).

(** [textToEdtf].  [preprocessText] and [parseWords] are the two functions
    that the class imports; [parseWords words] stands for
    [parseWords(words, this.options, this.localeData)]. *)
Definition textToEdtf
    (preprocessText : jsstring -> jsstring)
    (parseWords : list jsstring -> jsstring)
    (this : Converter) (input : jsstring) : jsstring :=
  let input := preprocessText input in
  let words := splitWords input in
  let delimiterIndex :=
    match findIndex (includes (intervalDelimiters this)) (interior words) with
    | Some i => Some (S i)
    | None => None
    end in
  let '(startWords, endWords) :=
    match delimiterIndex with
    | Some i => (firstn i words, skipn (S i) words)
    | None => (words, [])
    end in
  let edtf := parseWords startWords in
  match endWords with
  | [] => edtf
  | _ :: _ => edtf ++ js "/" ++ parseWords endWords
  end.

End EdtfConverter.
Import EdtfConverter.

(* ================================================================== *)
(** * Definitions used to state the properties *)
(* ================================================================== *)

Module Reading.

(** The pieces that [split] yields, as one list. *)
Definition pieces (edtf : jsstring) : list jsstring :=
  fst (split (ch "/") edtf) :: snd (split (ch "/") edtf).

(** The text of a segment once the custom modifiers are removed: what
    [validateEdtfPart] and the built-in detection see. *)
Definition stripped (this : Converter) (edtfPart : jsstring) : jsstring :=
  snd (detectCustomModifiers (customModifiers (options this)) edtfPart).

(** No custom modifier recognises the text. *)
Definition untouched (this : Converter) (edtfPart : jsstring) : Prop :=
  Forall (fun m => modifierRegex m edtfPart = false) (customModifiers (options this)).

Definition startsWith (prefix s : jsstring) : bool :=
  jsstring_eqb (firstn (List.length prefix) s) prefix.

Definition endsWith (suffix s : jsstring) : bool :=
  jsstring_eqb (skipn (List.length s - List.length suffix) s) suffix.

(** Open start as the specification words it: a leading [\[], possibly
    followed by [..]. *)
Definition leadingBracket (segment : jsstring) : bool :=
  startsWith (js "[") segment.

(** Open end as the specification words it: a trailing [..], possibly
    followed by [\]]. *)
Definition trailingDots (segment : jsstring) : bool :=
  endsWith (js "..") segment || endsWith (js "..]") segment.

(** The texts of the [date] pattern, read off the pattern: four digits; or
    four digits, [-] and a month; or four digits, [-], a month, [-] and a
    day. *)
Definition isDigit : jschar -> bool := between "0" "9".

(** [0[1-9]|1[0-2]] *)
Definition monthText (m1 m2 : jschar) : bool :=
  (only "0" m1 && between "1" "9" m2) || (only "1" m1 && between "0" "2" m2).

(** [[0-2][1-9]|3[0-1]] *)
Definition dayText (d1 d2 : jschar) : bool :=
  (between "0" "2" d1 && between "1" "9" d2) || (only "3" d1 && between "0" "1" d2).

Definition dateText (s : jsstring) : bool :=
  match s with
  | [y1; y2; y3; y4] =>
      isDigit y1 && isDigit y2 && isDigit y3 && isDigit y4
  | [y1; y2; y3; y4; h1; m1; m2] =>
      isDigit y1 && isDigit y2 && isDigit y3 && isDigit y4
      && only "-" h1 && monthText m1 m2
  | [y1; y2; y3; y4; h1; m1; m2; h2; d1; d2] =>
      isDigit y1 && isDigit y2 && isDigit y3 && isDigit y4
      && only "-" h1 && monthText m1 m2 && only "-" h2 && dayText d1 d2
  | _ => false
  end.

(** The three parts of the [date] pattern. *)
Definition yearPattern : regex := Rep 4 (Cls (between "0" "9")).

Definition monthPattern : regex :=
  Alt (Seq [Chr "0"; Cls (between "1" "9")]) (Seq [Chr "1"; Cls (between "0" "2")]).

Definition dayPattern : regex :=
  Alt (Seq [Cls (between "0" "2"); Cls (between "1" "9")])
      (Seq [Chr "3"; Cls (between "0" "1")]).

(** A digit or a hyphen. *)
Definition dateChar (c : jschar) : bool := isDigit c || only "-" c.

(** Merging two keyword lists. *)
Definition nonEmpty (s : jsstring) : bool := truthy s.

Fixpoint firstSeenFrom (seen : list jsstring) (l : list jsstring) : list jsstring :=
  match l with
  | [] => []
  | x :: l' =>
      if existsb (jsstring_eqb x) seen then firstSeenFrom seen l'
      else x :: firstSeenFrom (seen ++ [x]) l'
  end.

(** Duplicates dropped, the order of the first occurrences kept. *)
Definition firstSeen (l : list jsstring) : list jsstring := firstSeenFrom [] l.

(** Entry by entry in turn: the first of each list, then the second of
    each, and so on; the longer list supplies the rest alone. *)
Fixpoint interleave (xs ys : list jsstring) : list jsstring :=
  match xs, ys with
  | [], _ => ys
  | _, [] => xs
  | x :: xs', y :: ys' => x :: y :: interleave xs' ys'
  end.

(** The merge of two lists as the specification words it: one list after
    the other. *)
Definition concatenated (xs ys : list jsstring) : list jsstring :=
  firstSeen (filter nonEmpty (xs ++ ys)).

(** The merge of two lists entry by entry. *)
Definition interleaved (xs ys : list jsstring) : list jsstring :=
  firstSeen (filter nonEmpty (interleave xs ys)).

(** Entry [i] of each of two arrays, for [i] below [n], in turn. *)
Definition paired (a b : list JsValue) (n : nat) : list JsValue :=
  flat_map (fun i => [nth i a JsUndefined; nth i b JsUndefined]) (seq 0 n).

Definition strings (l : list jsstring) : JsValue := JsArray (List.map JsString l).

(** A converter with the default options, and a formatter that prints the
    clean text as it is. *)
Definition sampleLocale : LocaleData :=
  {| openEndKeywords := [js "open end"];
     openStartKeywords := [js "open start"];
     uncertainKeywords := [js "maybe"];
     approximateKeywords := [js "around"];
     dateFormats := [js "YYYY-MM-DD"];
     delimiters := [js "to"] |}.

Definition sampleConverter : Converter :=
  {| options := DEFAULT_OPTIONS; localeData := sampleLocale |}.

Definition plainFormat (clean : jsstring) (f : Format) (template : option jsstring)
    : jsstring := clean.

(** The converter with another list of custom modifiers. *)
Definition withModifiers (mods : list ICustomModifier) (this : Converter) : Converter :=
  {| options := {| approximateVariance := approximateVariance (options this);
                   customModifiers := mods;
                   locales := locales (options this) |};
     localeData := localeData this |}.

(** A segment result with other detected modifiers, or another open-start
    flag. *)
Definition withDetected (mods : list ICustomModifier) (r : IEdtfPartResult)
    : IEdtfPartResult :=
  {| cleanEdtf := cleanEdtf r; detectedModifiers := mods; format := format r;
     hasOpenEnd := hasOpenEnd r; hasOpenStart := hasOpenStart r;
     isApproximate := isApproximate r; isUncertain := isUncertain r;
     maxDate := maxDate r; minDate := minDate r |}.

Definition withOpenStart (b : bool) (r : IEdtfPartResult) : IEdtfPartResult :=
  {| cleanEdtf := cleanEdtf r; detectedModifiers := detectedModifiers r;
     format := format r;
     hasOpenEnd := hasOpenEnd r; hasOpenStart := b;
     isApproximate := isApproximate r; isUncertain := isUncertain r;
     maxDate := maxDate r; minDate := minDate r |}.

(** The piece passes the grammar once its custom modifiers are removed. *)
Definition passes (this : Converter) (piece : jsstring) : Prop :=
  validateEdtfPart (stripped this piece) = Ok tt.

(** The keys of a locale pack. *)
Definition keys (o : JsObject) : list jsstring := List.map fst o.

(** A custom modifier for a leading [c.] ("circa"), and a tokenizer that
    keeps the first word, for the examples. *)
Definition circa : ICustomModifier :=
  {| keyword := js "circa";
     modifierRegex := startsWith (js "c.");
     addModifierFn := fun edtf => js "c." ++ edtf;
     removeModifierFn := skipn 2 |}.

Definition firstWord (words : list jsstring) : jsstring :=
  match words with
  | [] => []
  | word :: _ => word
  end.

(** One source of [mergeWith]. *)
Definition mergeSource
    (customizer : JsValue -> JsValue -> JsValue) (obj source : JsObject) : JsObject :=
  fold_left
    (fun obj' '(key, srcValue) =>
       let newValue := customizer (get obj' key) srcValue in
       assign obj' key (if isUndefined newValue then srcValue else newValue))
    source obj.

End Reading.
Import Reading.

(* ================================================================== *)
(** * Facts about regular expressions *)
(* ================================================================== *)

Module RegexFacts.

Ltac inv H := inversion H; subst; clear H.

Lemma Matches_Void (s : jsstring) : ~ Matches Void s.
Proof. intro H; inv H. Qed.

Lemma Matches_Eps (s : jsstring) : Matches Eps s <-> s = [].
Proof.
  split; intro H.
  - now inv H.
  - subst; constructor.
Qed.

Lemma Matches_Cls (p : jschar -> bool) (s : jsstring) :
  Matches (Cls p) s <-> exists c, s = [c] /\ p c = true.
Proof.
  split; intro H.
  - inv H. eauto.
  - destruct H as (c & -> & H). now constructor.
Qed.

Lemma Matches_Cat (r1 r2 : regex) (s : jsstring) :
  Matches (Cat r1 r2) s <->
  exists s1 s2, s = s1 ++ s2 /\ Matches r1 s1 /\ Matches r2 s2.
Proof.
  split; intro H.
  - inv H. eauto.
  - destruct H as (s1 & s2 & -> & H1 & H2). now constructor.
Qed.

Lemma Matches_Alt (r1 r2 : regex) (s : jsstring) :
  Matches (Alt r1 r2) s <-> Matches r1 s \/ Matches r2 s.
Proof.
  split; intro H.
  - inv H; auto.
  - destruct H; [now apply MAltL | now apply MAltR].
Qed.

Lemma Matches_Opt (r : regex) (s : jsstring) :
  Matches (Opt r) s <-> Matches r s \/ s = [].
Proof. unfold Opt. rewrite Matches_Alt, Matches_Eps. tauto. Qed.

Lemma Matches_Chr (a : ascii) (s : jsstring) :
  Matches (Chr a) s <-> s = [ch a].
Proof.
  unfold Chr. rewrite Matches_Cls. unfold only, jschar_eqb. split.
  - intros (c & -> & H). apply N.eqb_eq in H. now subst.
  - intros ->. exists (ch a). split; [reflexivity | apply N.eqb_refl].
Qed.

Lemma Matches_Cat_Eps (r : regex) (s : jsstring) :
  Matches (Cat Eps r) s <-> Matches r s.
Proof.
  rewrite Matches_Cat. split.
  - intros (s1 & s2 & -> & H1 & H2). now inv H1.
  - intro H. exists [], s. repeat split; [ constructor | exact H ].
Qed.

Lemma Matches_Cat_Void_l (r : regex) (s : jsstring) :
  Matches (Cat Void r) s <-> False.
Proof.
  rewrite Matches_Cat. split; [| tauto].
  intros (s1 & s2 & _ & H1 & _). inv H1.
Qed.

Lemma Matches_Cat_Void_r (r : regex) (s : jsstring) :
  Matches (Cat r Void) s <-> False.
Proof.
  rewrite Matches_Cat. split; [| tauto].
  intros (s1 & s2 & _ & _ & H2). inv H2.
Qed.

Lemma Matches_Alt_Void_l (r : regex) (s : jsstring) :
  Matches (Alt Void r) s <-> Matches r s.
Proof.
  rewrite Matches_Alt. split; [| tauto]. intros [H | H]; [ inv H | exact H ].
Qed.

Lemma Matches_Alt_Void_r (r : regex) (s : jsstring) :
  Matches (Alt r Void) s <-> Matches r s.
Proof.
  rewrite Matches_Alt. split; [| tauto]. intros [H | H]; [ exact H | inv H ].
Qed.

(** The smart constructors keep the language. *)
Lemma cat_Matches (r1 r2 : regex) (s : jsstring) :
  Matches (cat r1 r2) s <-> Matches (Cat r1 r2) s.
Proof.
  destruct r1, r2; simpl;
    rewrite ?Matches_Cat_Eps, ?Matches_Cat_Void_l, ?Matches_Cat_Void_r;
    try tauto; (split; [ apply Matches_Void | tauto ]).
Qed.

Lemma alt_Matches (r1 r2 : regex) (s : jsstring) :
  Matches (alt r1 r2) s <-> Matches (Alt r1 r2) s.
Proof.
  destruct r1, r2; simpl;
    rewrite ?Matches_Alt_Void_l, ?Matches_Alt_Void_r; tauto.
Qed.

Lemma nullable_Matches (r : regex) : nullable r = true <-> Matches r [].
Proof.
  induction r; simpl.
  - split; [discriminate | intro H; inv H].
  - split; [constructor | reflexivity].
  - split; [discriminate | intro H; inv H].
  - rewrite andb_true_iff, IHr1, IHr2, Matches_Cat. split.
    + intros [H1 H2]. now exists [], [].
    + intros (s1 & s2 & E & H1 & H2).
      symmetry in E. apply app_eq_nil in E as [-> ->]. now split.
  - rewrite orb_true_iff, IHr1, IHr2, Matches_Alt. tauto.
  - split; [constructor | reflexivity].
Qed.

(** A non-empty match of a starred expression starts with a non-empty match
    of its body. *)
Lemma Matches_Star_cons (r : regex) (c : jschar) (s : jsstring) :
  Matches (Star r) (c :: s) ->
  exists s1 s2, s = s1 ++ s2 /\ Matches r (c :: s1) /\ Matches (Star r) s2.
Proof.
  intro H. remember (Star r) as r' eqn:Er. remember (c :: s) as cs eqn:Es.
  revert c s Er Es.
  induction H; intros c' s' Er Es; try discriminate.
  inv Er.
  destruct s1 as [| x s1].
  - simpl in Es. now apply IHMatches2.
  - simpl in Es. inv Es. now exists s1, s2.
Qed.

Lemma deriv_Matches (r : regex) (c : jschar) (s : jsstring) :
  Matches (deriv c r) s <-> Matches r (c :: s).
Proof.
  revert s. induction r; intro s; simpl.
  - split; intro H; inv H.
  - split; intro H; inv H.
  - destruct (p c) eqn:E.
    + rewrite Matches_Eps, Matches_Cls. split.
      * intros ->. now exists c.
      * intros (x & Ex & _). now inv Ex.
    + split; intro H; [ inv H | inv H; congruence ].
  - assert (Hcat : Matches (cat (deriv c r1) r2) s <->
                   exists s1 s2, s = s1 ++ s2 /\ Matches r1 (c :: s1) /\ Matches r2 s2).
    { rewrite cat_Matches, Matches_Cat.
      split; intros (s1 & s2 & E & H1 & H2); exists s1, s2;
        (split; [ exact E | split; [ now apply IHr1 | exact H2 ] ]). }
    destruct (nullable r1) eqn:En.
    + rewrite alt_Matches, Matches_Alt, Hcat, IHr2, Matches_Cat. split.
      * intros [(s1 & s2 & -> & H1 & H2) | H].
        -- exists (c :: s1), s2. now repeat split.
        -- exists [], (c :: s). repeat split; [ now apply nullable_Matches | exact H ].
      * intros (s1 & s2 & E & H1 & H2).
        destruct s1 as [| x s1]; simpl in E.
        -- right. now subst.
        -- inv E. left. now exists s1, s2.
    + rewrite Hcat, Matches_Cat. split.
      * intros (s1 & s2 & -> & H1 & H2). exists (c :: s1), s2. now repeat split.
      * intros (s1 & s2 & E & H1 & H2).
        destruct s1 as [| x s1]; simpl in E.
        -- apply nullable_Matches in H1. congruence.
        -- inv E. now exists s1, s2.
  - rewrite alt_Matches, !Matches_Alt, IHr1, IHr2. tauto.
  - rewrite cat_Matches, Matches_Cat. split.
    + intros (s1 & s2 & -> & H1 & H2).
      apply IHr in H1. change (c :: s1 ++ s2) with ((c :: s1) ++ s2).
      now constructor.
    + intro H. apply Matches_Star_cons in H as (s1 & s2 & -> & H1 & H2).
      exists s1, s2. repeat split; [ now apply IHr | exact H2 ].
Qed.

(** The matcher decides the language. *)
Lemma accepts_Matches (r : regex) (s : jsstring) :
  accepts r s = true <-> Matches r s.
Proof.
  revert r. induction s as [| c s IH]; intro r; simpl.
  - apply nullable_Matches.
  - rewrite IH. apply deriv_Matches.
Qed.

(** A starred class matches the strings made of the class. *)
Lemma Matches_Star_Cls (p : jschar -> bool) (s : jsstring) :
  Matches (Star (Cls p)) s <-> forallb p s = true.
Proof.
  split.
  - induction s as [| c s IH]; intro H; [reflexivity |].
    apply Matches_Star_cons in H as (s1 & s2 & -> & H1 & H2).
    apply Matches_Cls in H1 as (x & E & Hp). inv E. simpl in *.
    rewrite Hp. now apply IH.
  - induction s as [| c s IH]; simpl; intro H; [constructor |].
    apply andb_true_iff in H as [Hc Hs].
    change (c :: s) with ([c] ++ s). constructor; [ now constructor | now apply IH ].
Qed.

Lemma Matches_any (s : jsstring) : Matches (Star (Cls any)) s.
Proof. apply Matches_Star_Cls. now induction s. Qed.

(** [test] on the four shapes of pattern. *)
Lemma test_anchored (r : regex) (s : jsstring) :
  test (mkRegExp true r true) s = true <-> Matches r s.
Proof.
  unfold test, searched; simpl. rewrite accepts_Matches, Matches_Cat. split.
  - intros (s1 & s2 & -> & H1 & H2). apply Matches_Eps in H1 as ->.
    apply Matches_Cat in H2 as (s3 & s4 & -> & H3 & H4).
    apply Matches_Eps in H4 as ->. simpl. now rewrite app_nil_r.
  - intro H. exists [], s. repeat split; [ constructor |].
    rewrite <- (app_nil_r s). constructor; [ exact H | constructor ].
Qed.

Lemma test_unanchored (r : regex) (s : jsstring) :
  test (mkRegExp false r false) s = true <->
  exists before found after, s = before ++ found ++ after /\ Matches r found.
Proof.
  unfold test, searched; simpl. rewrite accepts_Matches, Matches_Cat. split.
  - intros (s1 & s2 & -> & H1 & H2).
    apply Matches_Cat in H2 as (s3 & s4 & -> & H3 & H4). now exists s1, s3, s4.
  - intros (s1 & s3 & s4 & -> & H). exists s1, (s3 ++ s4).
    repeat split; [ apply Matches_any |].
    constructor; [ exact H | apply Matches_any ].
Qed.

Lemma test_prefix (r : regex) (s : jsstring) :
  test (mkRegExp true r false) s = true <->
  exists found after, s = found ++ after /\ Matches r found.
Proof.
  unfold test, searched; simpl. rewrite accepts_Matches, Matches_Cat. split.
  - intros (s1 & s2 & -> & H1 & H2). apply Matches_Eps in H1 as ->.
    apply Matches_Cat in H2 as (s3 & s4 & -> & H3 & H4). now exists s3, s4.
  - intros (s3 & s4 & -> & H). exists [], (s3 ++ s4).
    repeat split; [ constructor |].
    constructor; [ exact H | apply Matches_any ].
Qed.

Lemma test_suffix (r : regex) (s : jsstring) :
  test (mkRegExp false r true) s = true <->
  exists before found, s = before ++ found /\ Matches r found.
Proof.
  unfold test, searched; simpl. rewrite accepts_Matches, Matches_Cat. split.
  - intros (s1 & s2 & -> & H1 & H2).
    apply Matches_Cat in H2 as (s3 & s4 & -> & H3 & H4).
    apply Matches_Eps in H4 as ->. rewrite app_nil_r. now exists s1, s3.
  - intros (s1 & s3 & -> & H). exists s1, s3.
    repeat split; [ apply Matches_any |].
    rewrite <- (app_nil_r s3). constructor; [ exact H | constructor ].
Qed.

End RegexFacts.
Import RegexFacts.

(* ================================================================== *)
(** * Facts about the calendar *)
(* ================================================================== *)

Module MomentFacts.

Lemma isLeapYear_true (y : Z) :
  isLeapYear y = true <-> (y mod 4 = 0 /\ y mod 100 <> 0) \/ y mod 400 = 0.
Proof.
  unfold isLeapYear.
  rewrite orb_true_iff, andb_true_iff, negb_true_iff, !Z.eqb_eq, Z.eqb_neq.
  Z.to_euclidean_division_equations. lia.
Qed.

(** A year has 365 days, 366 when it is a leap year. *)
Lemma DayFromYear_next (y : Z) :
  DayFromYear (y + 1) = DayFromYear y + (if isLeapYear y then 366 else 365).
Proof.
  destruct (isLeapYear y) eqn:E.
  - apply isLeapYear_true in E. unfold DayFromYear.
    Z.to_euclidean_division_equations. lia.
  - assert (N : ~ ((y mod 4 = 0 /\ y mod 100 <> 0) \/ y mod 400 = 0)).
    { rewrite <- isLeapYear_true. congruence. }
    unfold DayFromYear. Z.to_euclidean_division_equations. lia.
Qed.

Lemma DayFromYear_lt (y1 y2 : Z) :
  y1 < y2 -> DayFromYear (y1 + 1) <= DayFromYear y2.
Proof.
  intro H. unfold DayFromYear. Z.to_euclidean_division_equations. lia.
Qed.

(** The twelve months, one case each. *)
Ltac each_month m :=
  let H := fresh "Hm" in
  assert (H : m = 0 \/ m = 1 \/ m = 2 \/ m = 3 \/ m = 4 \/ m = 5 \/ m = 6 \/
              m = 7 \/ m = 8 \/ m = 9 \/ m = 10 \/ m = 11) by lia;
  repeat (destruct H as [H | H]; [ subst m | ]); [ .. | subst m ].

Lemma daysInMonth_table (y m : Z) :
  0 <= m <= 11 ->
  daysInMonth y m =
    match m with
    | 1 => if isLeapYear y then 29 else 28
    | 3 | 5 | 8 | 10 => 30
    | _ => 31
    end.
Proof.
  intro H. each_month m; unfold daysInMonth; cbn; rewrite ?Z.add_0_r; reflexivity.
Qed.

Lemma daysInMonth_bounds (y m : Z) : 0 <= m <= 11 -> 28 <= daysInMonth y m <= 31.
Proof.
  intro H. rewrite (daysInMonth_table y m H).
  each_month m; try destruct (isLeapYear y); lia.
Qed.

(** The length of a month does not depend on how the month is written. *)
Lemma daysInMonth_carry (y m : Z) :
  daysInMonth (y + m / 12) (m mod 12) = daysInMonth y m.
Proof.
  unfold daysInMonth. rewrite Z.mod_mod by lia.
  replace (m mod 12 - m mod 12) with 0 by lia.
  replace ((m - m mod 12) / 12) with (m / 12)
    by (Z.to_euclidean_division_equations; lia).
  cbn. now rewrite Z.add_0_r.
Qed.

Lemma daysBeforeMonth_next (y m : Z) :
  0 <= m <= 10 ->
  daysBeforeMonth (isLeapYear y) (m + 1) =
  daysBeforeMonth (isLeapYear y) m + daysInMonth y m.
Proof.
  intro H. rewrite (daysInMonth_table y m) by lia.
  each_month m; try lia; cbn; destruct (isLeapYear y); reflexivity.
Qed.

Lemma daysBeforeMonth_mono (l : bool) (m1 m2 : Z) :
  0 <= m1 -> m1 <= m2 -> m2 <= 11 ->
  daysBeforeMonth l m1 <= daysBeforeMonth l m2.
Proof.
  intros H1 H12 H2.
  each_month m1; each_month m2; try lia; cbn; destruct l; lia.
Qed.

Lemma daysBeforeMonth_end (y m : Z) :
  0 <= m <= 11 ->
  daysBeforeMonth (isLeapYear y) m + daysInMonth y m
  <= (if isLeapYear y then 366 else 365).
Proof.
  intro H. rewrite (daysInMonth_table y m) by lia.
  each_month m; cbn; destruct (isLeapYear y); lia.
Qed.

Lemma MakeDay_inrange (y m d : Z) :
  0 <= m <= 11 ->
  MakeDay y m d = DayFromYear y + daysBeforeMonth (isLeapYear y) m + d - 1.
Proof.
  intro H. unfold MakeDay.
  rewrite Z.div_small, Z.mod_small, Z.add_0_r by lia. reflexivity.
Qed.

(** The first day of a month comes after every day of an earlier month. *)
Lemma MakeDay_month_lt (y1 m1 y2 m2 : Z) :
  0 <= m1 <= 11 -> 0 <= m2 <= 11 ->
  y1 < y2 \/ (y1 = y2 /\ m1 < m2) ->
  MakeDay y1 m1 (daysInMonth y1 m1) < MakeDay y2 m2 1.
Proof.
  intros H1 H2 H. rewrite !MakeDay_inrange by assumption.
  destruct H as [H | [-> H]].
  - pose proof (DayFromYear_lt y1 y2 H) as Hy.
    rewrite DayFromYear_next in Hy.
    pose proof (daysBeforeMonth_end y1 m1 H1).
    pose proof (daysBeforeMonth_mono (isLeapYear y2) 0 m2
                  ltac:(lia) ltac:(lia) ltac:(lia)) as Hb.
    cbn in Hb. lia.
  - pose proof (daysBeforeMonth_next y2 m1 ltac:(lia)).
    pose proof (daysBeforeMonth_mono (isLeapYear y2) (m1 + 1) m2
                  ltac:(lia) ltac:(lia) ltac:(lia)).
    lia.
Qed.

Lemma timeClip_At (d d' : DateTime) : timeClip d = At d' -> d' = d.
Proof.
  unfold timeClip. destruct (Z.abs (timeValue d) <=? 8640000000000000); congruence.
Qed.

(** ** One day later, one day earlier *)

Lemma nextDay_spec (d : DateTime) :
  wellFormed d ->
  wellFormed (nextDay d) /\ timeValue (nextDay d) = timeValue d + msPerDay.
Proof.
  destruct d as [y m dt t]. unfold wellFormed, nextDay, timeValue; simpl.
  intros (Hm & Hd & Ht).
  destruct (dt <? daysInMonth y m) eqn:E1; simpl.
  - apply Z.ltb_lt in E1. rewrite !MakeDay_inrange by lia.
    repeat split; lia.
  - apply Z.ltb_ge in E1. assert (dt = daysInMonth y m) by lia. subst dt.
    destruct (m <? 11) eqn:E2; simpl.
    + apply Z.ltb_lt in E2.
      pose proof (daysInMonth_bounds y (m + 1) ltac:(lia)).
      rewrite !MakeDay_inrange by lia.
      rewrite daysBeforeMonth_next by lia.
      repeat split; lia.
    + apply Z.ltb_ge in E2. assert (m = 11) by lia. subst m.
      pose proof (daysInMonth_bounds (y + 1) 0 ltac:(lia)).
      rewrite !MakeDay_inrange by lia. rewrite DayFromYear_next.
      rewrite (daysInMonth_table y 11) by lia. cbn.
      repeat split; try lia. destruct (isLeapYear y); lia.
Qed.

Lemma prevDay_spec (d : DateTime) :
  wellFormed d ->
  wellFormed (prevDay d) /\ timeValue (prevDay d) = timeValue d - msPerDay.
Proof.
  destruct d as [y m dt t]. unfold wellFormed, prevDay, timeValue; simpl.
  intros (Hm & Hd & Ht).
  destruct (1 <? dt) eqn:E1; simpl.
  - apply Z.ltb_lt in E1. rewrite !MakeDay_inrange by lia.
    repeat split; lia.
  - apply Z.ltb_ge in E1. assert (dt = 1) by lia. subst dt.
    destruct (0 <? m) eqn:E2; simpl.
    + apply Z.ltb_lt in E2.
      pose proof (daysInMonth_bounds y (m - 1) ltac:(lia)).
      rewrite !MakeDay_inrange by lia.
      pose proof (daysBeforeMonth_next y (m - 1) ltac:(lia)) as Hn.
      replace (m - 1 + 1) with m in Hn by lia.
      repeat split; lia.
    + apply Z.ltb_ge in E2. assert (m = 0) by lia. subst m.
      pose proof (DayFromYear_next (y - 1)) as Hn.
      replace (y - 1 + 1) with y in Hn by lia.
      rewrite !MakeDay_inrange by lia.
      rewrite (daysInMonth_table (y - 1) 11) by lia. cbn.
      repeat split; try lia. destruct (isLeapYear (y - 1)); lia.
Qed.

Lemma iter_nextDay (n : nat) (d : DateTime) :
  wellFormed d ->
  wellFormed (Nat.iter n nextDay d) /\
  timeValue (Nat.iter n nextDay d) = timeValue d + Z.of_nat n * msPerDay.
Proof.
  intro H. induction n as [| n [IHw IHt]].
  - simpl. split; [ exact H | lia ].
  - change (Nat.iter (S n) nextDay d) with (nextDay (Nat.iter n nextDay d)).
    destruct (nextDay_spec _ IHw) as [Hw Ht]. split; [ exact Hw |].
    unfold msPerDay in *. lia.
Qed.

Lemma iter_prevDay (n : nat) (d : DateTime) :
  wellFormed d ->
  wellFormed (Nat.iter n prevDay d) /\
  timeValue (Nat.iter n prevDay d) = timeValue d - Z.of_nat n * msPerDay.
Proof.
  intro H. induction n as [| n [IHw IHt]].
  - simpl. split; [ exact H | lia ].
  - change (Nat.iter (S n) prevDay d) with (prevDay (Nat.iter n prevDay d)).
    destruct (prevDay_spec _ IHw) as [Hw Ht]. split; [ exact Hw |].
    unfold msPerDay in *. lia.
Qed.

(** [shiftDays n] moves the time value by exactly [n] days, as
    [setUTCDate(date + n)] does. *)
Lemma shiftDays_spec (n : Z) (d : DateTime) :
  wellFormed d ->
  wellFormed (shiftDays n d) /\
  timeValue (shiftDays n d) = timeValue d + n * msPerDay.
Proof.
  intro H. unfold shiftDays. destruct (0 <=? n) eqn:E.
  - apply Z.leb_le in E. destruct (iter_nextDay (Z.to_nat n) d H) as [Hw Ht].
    split; [ exact Hw |]. rewrite Ht, Z2Nat.id by lia. reflexivity.
  - apply Z.leb_gt in E. destruct (iter_prevDay (Z.to_nat (- n)) d H) as [Hw Ht].
    split; [ exact Hw |]. rewrite Ht, Z2Nat.id by lia. unfold msPerDay. lia.
Qed.


(** ** Months *)

Lemma addMonths_spec (n : Z) (d d' : DateTime) :
  wellFormed d ->
  addMonths n d = At d' ->
  wellFormed d' /\
  (0 <= n -> timeValue d <= timeValue d') /\
  (n <= 0 -> timeValue d' <= timeValue d).
Proof.
  intros Hw. unfold addMonths. destruct (n =? 0) eqn:E0.
  - intro E. injection E as <-. split; [ exact Hw | split; lia ].
  - apply Z.eqb_neq in E0. intro E. apply timeClip_At in E. subst d'.
    destruct d as [y m dt t]. unfold wellFormed, timeValue in *; simpl in *.
    destruct Hw as (Hm & Hd & Ht).
    set (v := m + n).
    assert (Hv : 0 <= v mod 12 <= 11) by (pose proof (Z.mod_pos_bound v 12); lia).
    pose proof (daysInMonth_bounds (y + v / 12) (v mod 12) Hv) as Hb.
    rewrite daysInMonth_carry in *.
    repeat split; try lia.
    + intro Hn.
      assert (Hlt : MakeDay y m (daysInMonth y m) < MakeDay (y + v / 12) (v mod 12) 1).
      { apply MakeDay_month_lt; try lia.
        subst v. Z.to_euclidean_division_equations. lia. }
      rewrite !MakeDay_inrange in * by lia. unfold msPerDay. lia.
    + intro Hn.
      assert (Hlt : MakeDay (y + v / 12) (v mod 12)
                      (daysInMonth (y + v / 12) (v mod 12)) < MakeDay y m 1).
      { apply MakeDay_month_lt; try lia.
        subst v. Z.to_euclidean_division_equations. lia. }
      rewrite daysInMonth_carry in Hlt.
      rewrite !MakeDay_inrange in * by lia. unfold msPerDay. lia.
Qed.

Lemma addDays_spec (n : Z) (d d' : DateTime) :
  wellFormed d ->
  addDays n d = At d' ->
  wellFormed d' /\ timeValue d' = timeValue d + n * msPerDay.
Proof.
  intros Hw. unfold addDays. destruct (n =? 0) eqn:E0.
  - apply Z.eqb_eq in E0. intro E. injection E as <-. split; [ exact Hw | lia ].
  - intro E. apply timeClip_At in E. subst d'. now apply shiftDays_spec.
Qed.

(** [add] moves forward in time when the amount is not negative, backward
    when it is not positive. *)
Lemma add_spec (n : Z) (u : unitOfTime) (d d' : DateTime) :
  wellFormed d ->
  add n u (At d) = At d' ->
  wellFormed d' /\
  (0 <= n -> timeValue d <= timeValue d') /\
  (n <= 0 -> timeValue d' <= timeValue d).
Proof.
  intros Hw E. destruct u; unfold add in E.
  - destruct (addMonths_spec _ _ _ Hw E) as (H1 & H2 & H3).
    split; [ exact H1 | split; intro; [ apply H2 | apply H3 ]; lia ].
  - now apply addMonths_spec with (n := n).
  - destruct (addDays_spec _ _ _ Hw E) as (H1 & H2).
    unfold msPerDay in H2. split; [ exact H1 | split; lia ].
Qed.

(** ** The two ends of a unit *)

Lemma startOf_spec (u : unitOfTime) (d d' : DateTime) :
  wellFormed d ->
  startOf u (At d) = At d' ->
  wellFormed d' /\ timeValue d' <= timeValue d.
Proof.
  intros Hw E. simpl in E. apply timeClip_At in E. subst d'.
  destruct d as [y m dt t]. unfold wellFormed, timeValue in *; simpl in *.
  destruct Hw as (Hm & Hd & Ht).
  pose proof (daysInMonth_bounds y m Hm).
  pose proof (daysInMonth_bounds y 0 ltac:(lia)).
  pose proof (daysBeforeMonth_mono (isLeapYear y) 0 m ltac:(lia) ltac:(lia) ltac:(lia)) as Hb.
  cbn in Hb.
  destruct u; simpl; rewrite !MakeDay_inrange by lia; unfold msPerDay in *;
    cbn; repeat split; lia.
Qed.

Lemma endOf_spec (u : unitOfTime) (d d' : DateTime) :
  wellFormed d ->
  endOf u (At d) = At d' ->
  wellFormed d' /\ timeValue d <= timeValue d'.
Proof.
  intros Hw E. simpl in E. apply timeClip_At in E. subst d'.
  destruct d as [y m dt t]. unfold wellFormed, timeValue in *; simpl in *.
  destruct Hw as (Hm & Hd & Ht).
  pose proof (daysInMonth_bounds y m Hm).
  pose proof (daysBeforeMonth_end y m Hm) as He.
  pose proof (daysInMonth_table y 11 ltac:(lia)) as H11. cbn in H11.
  destruct u; simpl; rewrite !MakeDay_inrange by lia; unfold msPerDay in *;
    cbn; rewrite ?H11; repeat split; try lia.
  destruct (isLeapYear y); lia.
Qed.

Lemma add_Invalid (n : Z) (u : unitOfTime) (m : Moment) (d : DateTime) :
  add n u m = At d -> exists d0, m = At d0.
Proof. destruct m; [ discriminate | eauto ]. Qed.

Lemma startOf_Invalid (u : unitOfTime) (m : Moment) (d : DateTime) :
  startOf u m = At d -> exists d0, m = At d0.
Proof. destruct m; [ discriminate | eauto ]. Qed.

Lemma endOf_Invalid (u : unitOfTime) (m : Moment) (d : DateTime) :
  endOf u m = At d -> exists d0, m = At d0.
Proof. destruct m; [ discriminate | eauto ]. Qed.

(** An amount of zero changes nothing. *)
Lemma add_zero (u : unitOfTime) (m : Moment) : add 0 u m = m.
Proof. destruct m as [| d]; [ reflexivity | destruct u; reflexivity ]. Qed.

Lemma subtract_zero (u : unitOfTime) (m : Moment) : subtract 0 u m = m.
Proof. apply add_zero. Qed.

(** The window of a unit around a date, widened by a variance that is not
    negative, is not empty. *)
Lemma window_le (u : unitOfTime) (v : Z) (base : Moment) (a b : DateTime) :
  (forall d, base = At d -> wellFormed d) ->
  0 <= v ->
  startOf u (subtract v u base) = At a ->
  endOf u (add v u base) = At b ->
  timeValue a <= timeValue b.
Proof.
  intros Hbase Hv Ha Hb.
  destruct (startOf_Invalid _ _ _ Ha) as (lo & Elo).
  destruct (endOf_Invalid _ _ _ Hb) as (hi & Ehi).
  rewrite Elo in Ha. rewrite Ehi in Hb.
  destruct (add_Invalid _ _ _ _ Ehi) as (d & ->).
  specialize (Hbase d eq_refl).
  unfold subtract in Elo.
  destruct (add_spec _ _ _ _ Hbase Elo) as (Hwlo & _ & Hlo).
  destruct (add_spec _ _ _ _ Hbase Ehi) as (Hwhi & Hhi & _).
  destruct (startOf_spec _ _ _ Hwlo Ha) as (_ & H1).
  destruct (endOf_spec _ _ _ Hwhi Hb) as (_ & H2).
  lia.
Qed.

Lemma unit_le (u : unitOfTime) (base : Moment) (a b : DateTime) :
  (forall d, base = At d -> wellFormed d) ->
  startOf u base = At a ->
  endOf u base = At b ->
  timeValue a <= timeValue b.
Proof.
  intros Hbase Ha Hb.
  apply (window_le u 0 base a b Hbase); [ lia | | ].
  - now rewrite subtract_zero.
  - now rewrite add_zero.
Qed.

(** What [moment.utc] reads is a day of the calendar. *)
Lemma utc_wellFormed (input : jsstring) (f : Format) (d : DateTime) :
  utc input f = At d -> wellFormed d.
Proof.
  unfold utc. destruct (parsedFields input f) as [[[y m] dt] |]; [| discriminate].
  destruct (overflows y m dt) eqn:E; [ discriminate |].
  intro H. apply timeClip_At in H. subst d.
  unfold overflows in E. rewrite !orb_false_iff in E.
  destruct E as (((E1 & E2) & E3) & E4).
  apply Z.ltb_ge in E1, E2, E3, E4.
  unfold wellFormed, msPerDay; simpl. lia.
Qed.

(** ** The window of an approximate date, in calendar terms *)

Lemma addMonths_At (n : Z) (d d' : DateTime) :
  wellFormed d ->
  addMonths n d = At d' ->
  d' = mkDateTime (utcFullYear d + (utcMonth d + n) / 12) ((utcMonth d + n) mod 12)
                  (Z.min (utcDate d) (daysInMonth (utcFullYear d) (utcMonth d + n)))
                  (utcTime d).
Proof.
  intros (Hm & Hd & Ht). unfold addMonths. destruct (n =? 0) eqn:E.
  - apply Z.eqb_eq in E. subst n. intro H. injection H as <-.
    rewrite Z.add_0_r, Z.div_small, Z.mod_small, Z.add_0_r, Z.min_l by lia.
    now destruct d.
  - intro H. now apply timeClip_At in H.
Qed.

(** Years: from January 1st of the year [v] years before to December 31st
    of the year [v] years after. *)
Lemma approximate_year_window (y v : Z) (a b : DateTime) :
  startOf year (subtract v year (At (mkDateTime y 0 1 0))) = At a ->
  endOf year (add v year (At (mkDateTime y 0 1 0))) = At b ->
  a = mkDateTime (y - v) 0 1 0 /\ b = mkDateTime (y + v) 11 31 86399999.
Proof.
  assert (W : wellFormed (mkDateTime y 0 1 0)).
  { unfold wellFormed, msPerDay; simpl.
    rewrite (daysInMonth_table y 0) by lia. lia. }
  intros Ha Hb.
  destruct (startOf_Invalid _ _ _ Ha) as (lo & Elo).
  destruct (endOf_Invalid _ _ _ Hb) as (hi & Ehi).
  rewrite Elo in Ha. rewrite Ehi in Hb.
  unfold subtract, add in Elo, Ehi.
  apply (addMonths_At _ _ _ W) in Elo. apply (addMonths_At _ _ _ W) in Ehi.
  cbn [utcFullYear utcMonth utcDate utcTime] in Elo, Ehi.
  unfold startOf in Ha. unfold endOf in Hb.
  apply timeClip_At in Ha, Hb. subst a b lo hi.
  cbn [utcFullYear utcMonth utcDate utcTime].
  replace ((0 + 12 * - v) / 12) with (- v) by (Z.to_euclidean_division_equations; lia).
  replace ((0 + 12 * v) / 12) with v by (Z.to_euclidean_division_equations; lia).
  split; f_equal; lia.
Qed.

(** Months: from the first day of the month [v] months before to the last
    day of the month [v] months after. *)
Lemma approximate_month_window (y m v : Z) (a b : DateTime) :
  0 <= m <= 11 ->
  startOf month (subtract v month (At (mkDateTime y m 1 0))) = At a ->
  endOf month (add v month (At (mkDateTime y m 1 0))) = At b ->
  a = mkDateTime (y + (m - v) / 12) ((m - v) mod 12) 1 0 /\
  b = mkDateTime (y + (m + v) / 12) ((m + v) mod 12)
                 (daysInMonth y (m + v)) 86399999.
Proof.
  intro Hm.
  assert (W : wellFormed (mkDateTime y m 1 0)).
  { pose proof (daysInMonth_bounds y m Hm).
    unfold wellFormed, msPerDay; simpl. lia. }
  intros Ha Hb.
  destruct (startOf_Invalid _ _ _ Ha) as (lo & Elo).
  destruct (endOf_Invalid _ _ _ Hb) as (hi & Ehi).
  rewrite Elo in Ha. rewrite Ehi in Hb.
  unfold subtract, add in Elo, Ehi.
  apply (addMonths_At _ _ _ W) in Elo. apply (addMonths_At _ _ _ W) in Ehi.
  cbn [utcFullYear utcMonth utcDate utcTime] in Elo, Ehi.
  unfold startOf in Ha. unfold endOf in Hb.
  apply timeClip_At in Ha, Hb. subst a b lo hi.
  cbn [utcFullYear utcMonth utcDate utcTime].
  rewrite daysInMonth_carry.
  replace (m + - v) with (m - v) by lia.
  split; reflexivity.
Qed.

Lemma nextDay_time (d : DateTime) : utcTime (nextDay d) = utcTime d.
Proof. unfold nextDay. destruct (_ <? _); [| destruct (_ <? _) ]; reflexivity. Qed.

Lemma prevDay_time (d : DateTime) : utcTime (prevDay d) = utcTime d.
Proof. unfold prevDay. destruct (_ <? _); [| destruct (_ <? _) ]; reflexivity. Qed.

Lemma shiftDays_time (n : Z) (d : DateTime) : utcTime (shiftDays n d) = utcTime d.
Proof.
  unfold shiftDays. destruct (0 <=? n).
  - induction (Z.to_nat n) as [| k IH]; [ reflexivity |].
    simpl. now rewrite nextDay_time.
  - induction (Z.to_nat (- n)) as [| k IH]; [ reflexivity |].
    simpl. now rewrite prevDay_time.
Qed.

Lemma addDays_time (n : Z) (d d' : DateTime) :
  addDays n d = At d' -> utcTime d' = utcTime d.
Proof.
  unfold addDays. destruct (n =? 0).
  - intro E. now injection E as <-.
  - intro E. apply timeClip_At in E. subst d'. apply shiftDays_time.
Qed.

(** Days: from the first millisecond of the day [v] days before to the last
    millisecond of the day [v] days after. *)
Lemma approximate_day_window (d a b : DateTime) (v : Z) :
  wellFormed d -> utcTime d = 0 ->
  startOf day (subtract v day (At d)) = At a ->
  endOf day (add v day (At d)) = At b ->
  timeValue a = timeValue d - v * msPerDay /\
  timeValue b = timeValue d + v * msPerDay + (msPerDay - 1).
Proof.
  intros W T Ha Hb.
  destruct (startOf_Invalid _ _ _ Ha) as (lo & Elo).
  destruct (endOf_Invalid _ _ _ Hb) as (hi & Ehi).
  rewrite Elo in Ha. rewrite Ehi in Hb.
  unfold subtract, add in Elo, Ehi.
  destruct (addDays_spec _ _ _ W Elo) as (Wlo & Tlo).
  destruct (addDays_spec _ _ _ W Ehi) as (Whi & Thi).
  assert (Zlo : utcTime lo = 0) by (rewrite (addDays_time _ _ _ Elo); exact T).
  assert (Zhi : utcTime hi = 0) by (rewrite (addDays_time _ _ _ Ehi); exact T).
  unfold startOf in Ha. unfold endOf in Hb.
  apply timeClip_At in Ha, Hb. subst a b.
  unfold timeValue in *; cbn [utcFullYear utcMonth utcDate utcTime].
  rewrite Zlo in Tlo. rewrite Zhi in Thi.
  unfold msPerDay in *. lia.
Qed.

End MomentFacts.
Import MomentFacts.

(* ================================================================== *)
(** * Facts about the converter *)
(* ================================================================== *)

Module ConverterFacts.

Lemma bind_Ok {A B : Type} (r : Result A) (k : A -> Result B) (b : B) :
  bind r k = Ok b -> exists a, r = Ok a /\ k a = Ok b.
Proof. destruct r as [a | e]; simpl; [ eauto | discriminate ]. Qed.

Lemma validateEdtfPart_Ok (edtf : jsstring) :
  validateEdtfPart edtf = Ok tt <-> test edtfRegex edtf = true.
Proof.
  unfold validateEdtfPart. destruct (test edtfRegex edtf); split; congruence.
Qed.

Lemma validateEdtfPart_Throw (edtf : jsstring) (e : Error) :
  validateEdtfPart edtf = Throw e ->
  e = InvalidEdtf edtf /\ test edtfRegex edtf = false.
Proof.
  unfold validateEdtfPart. destruct (test edtfRegex edtf); [ discriminate |].
  intro H. injection H as <-. now split.
Qed.

(** What [parseEdtfPart] returns, field by field. *)
Lemma parseEdtfPart_Ok (this : Converter) (edtfPart : jsstring) (r : IEdtfPartResult) :
  parseEdtfPart this edtfPart = Ok r ->
  let segment := stripped this edtfPart in
  let clean := remove_all modifierOrSpace segment in
  let u := unitOf (formatOf clean) in
  let v := varianceOf (options this) (formatOf clean) in
  let base := utc clean (formatOf clean) in
  test edtfRegex segment = true /\
  cleanEdtf r = clean /\
  detectedModifiers r =
    fst (detectCustomModifiers (customModifiers (options this)) edtfPart) /\
  format r = formatOf clean /\
  hasOpenEnd r = test openEndRegex segment /\
  hasOpenStart r = test openStartRegex segment /\
  isApproximate r = test approximateRegex segment /\
  isUncertain r = test uncertainRegex segment /\
  maxDate r = endOf u (if isApproximate r then add v u base else base) /\
  minDate r = startOf u (if isApproximate r then subtract v u base else base).
Proof.
  unfold parseEdtfPart, stripped.
  destruct (detectCustomModifiers (customModifiers (options this)) edtfPart)
    as [detected segment]; simpl.
  unfold validateEdtfPart. destruct (test edtfRegex segment); simpl; [| discriminate ].
  intro H. injection H as <-. simpl. repeat split; reflexivity.
Qed.

Lemma parseEdtfPart_Throw (this : Converter) (edtfPart : jsstring) (e : Error) :
  parseEdtfPart this edtfPart = Throw e ->
  e = InvalidEdtf (stripped this edtfPart) /\
  test edtfRegex (stripped this edtfPart) = false.
Proof.
  unfold parseEdtfPart, stripped.
  destruct (detectCustomModifiers (customModifiers (options this)) edtfPart)
    as [detected segment]; simpl.
  unfold validateEdtfPart. destruct (test edtfRegex segment); simpl; [ discriminate |].
  intro H. injection H as <-. now split.
Qed.

Lemma parseEdtfPart_total (this : Converter) (edtfPart : jsstring) :
  (exists r, parseEdtfPart this edtfPart = Ok r /\
             test edtfRegex (stripped this edtfPart) = true) \/
  (parseEdtfPart this edtfPart = Throw (InvalidEdtf (stripped this edtfPart)) /\
   test edtfRegex (stripped this edtfPart) = false).
Proof.
  destruct (parseEdtfPart this edtfPart) as [r | e] eqn:E.
  - left. exists r. split; [ reflexivity |]. now apply parseEdtfPart_Ok in E.
  - right. apply parseEdtfPart_Throw in E as [-> H]. now split.
Qed.

(** A text that no custom modifier recognises is left as it is. *)
Lemma detect_untouched_from (mods : list ICustomModifier) (detected : list ICustomModifier)
    (edtfPart : jsstring) :
  Forall (fun m => modifierRegex m edtfPart = false) mods ->
  fold_left
    (fun '(detected, part) m =>
       if modifierRegex m part then (detected ++ [m], removeModifierFn m part)
       else (detected, part))
    mods (detected, edtfPart) = (detected, edtfPart).
Proof.
  induction 1 as [| m mods Hm _ IH]; simpl; [ reflexivity |].
  now rewrite Hm.
Qed.

Lemma stripped_untouched (this : Converter) (edtfPart : jsstring) :
  untouched this edtfPart -> stripped this edtfPart = edtfPart.
Proof.
  intro H. unfold stripped, detectCustomModifiers.
  now rewrite detect_untouched_from.
Qed.

(** The first piece that fails ends [map]. *)
Lemma mapM_Throw (this : Converter) (l : list jsstring) :
  Exists (fun piece => test edtfRegex (stripped this piece) = false) l ->
  exists piece,
    In piece l /\
    test edtfRegex (stripped this piece) = false /\
    mapM (parseEdtfPart this) l = Throw (InvalidEdtf (stripped this piece)).
Proof.
  induction l as [| p l IH]; intro H; [ inversion H |].
  simpl. destruct (parseEdtfPart_total this p) as [(r & -> & Hr) | [-> Hr]]; simpl.
  - inversion H as [? ? Hp | ? ? Hl]; subst; [ congruence |].
    destruct (IH Hl) as (piece & Hin & Hs & ->). simpl. eauto.
  - eauto.
Qed.

Lemma parseEdtf_Throw (this : Converter) (edtf : jsstring) :
  Exists (fun piece => test edtfRegex (stripped this piece) = false) (pieces edtf) ->
  exists piece,
    In piece (pieces edtf) /\
    test edtfRegex (stripped this piece) = false /\
    parseEdtf this edtf = Throw (InvalidEdtf (stripped this piece)).
Proof.
  unfold parseEdtf, pieces. destruct (split (ch "/") edtf) as [first rest]; simpl.
  intro H.
  destruct (parseEdtfPart_total this first) as [(r & -> & Hr) | [-> Hr]]; simpl.
  - inversion H as [? ? Hp | ? ? Hl]; subst; [ congruence |].
    destruct (mapM_Throw this rest Hl) as (piece & Hin & Hs & ->). simpl. eauto.
  - eauto.
Qed.

(** ** Splitting *)

Lemma split_no_separator (sep : jschar) (s : jsstring) :
  ~ In sep s -> split sep s = (s, []).
Proof.
  induction s as [| c s IH]; simpl; intro H; [ reflexivity |].
  rewrite IH by tauto.
  unfold jschar_eqb. destruct (N.eqb_spec c sep) as [-> | _]; [ tauto | reflexivity ].
Qed.

Lemma split_app (sep : jschar) (a b : jsstring) :
  ~ In sep a ->
  split sep (a ++ sep :: b) = (a, fst (split sep b) :: snd (split sep b)).
Proof.
  induction a as [| c a IH]; simpl; intro H.
  - destruct (split sep b) as [p ps]. unfold jschar_eqb. now rewrite N.eqb_refl.
  - rewrite IH by tauto.
    unfold jschar_eqb. destruct (N.eqb_spec c sep) as [-> | _]; [ tauto | reflexivity ].
Qed.

(** ** The built-in detection *)

Lemma one_of_tilde_percent (c : jschar) :
  one_of "~%" c = true <-> c = ch "~" \/ c = ch "%".
Proof.
  unfold one_of, jschar_eqb; simpl.
  rewrite !orb_true_iff, !N.eqb_eq. intuition discriminate.
Qed.

Lemma one_of_question_percent (c : jschar) :
  one_of "?%" c = true <-> c = ch "?" \/ c = ch "%".
Proof.
  unfold one_of, jschar_eqb; simpl.
  rewrite !orb_true_iff, !N.eqb_eq. intuition discriminate.
Qed.

(** An unanchored one-character class looks for a code unit of the class. *)
Lemma test_class (p : jschar -> bool) (s : jsstring) :
  test (mkRegExp false (Cls p) false) s = true <-> exists c, In c s /\ p c = true.
Proof.
  rewrite test_unanchored. split.
  - intros (before & found & after & -> & H).
    apply Matches_Cls in H as (c & -> & Hc). exists c. split; [| exact Hc ].
    apply in_or_app. right. now left.
  - intros (c & Hin & Hc). apply in_split in Hin as (before & after & ->).
    exists before, [c], after. split; [ reflexivity | now constructor ].
Qed.

Lemma Matches_openStart (found : jsstring) :
  Matches (body openStartRegex) found <->
  exists w, found = js "[" ++ w ++ js ".." /\ forallb white_space w = true.
Proof.
  unfold openStartRegex, ws; simpl. split.
  - intro H.
    apply Matches_Cat in H as (s1 & s2 & -> & H1 & H2). apply Matches_Chr in H1 as ->.
    apply Matches_Cat in H2 as (w & s3 & -> & Hw & H3). apply Matches_Star_Cls in Hw.
    apply Matches_Cat in H3 as (s4 & s5 & -> & H4 & H5).
    apply Matches_Chr in H4 as ->. apply Matches_Chr in H5 as ->.
    exists w. now split.
  - intros (w & -> & Hw).
    apply (MCat _ _ (js "[")); [ now apply Matches_Chr |].
    apply MCat; [ now apply Matches_Star_Cls |].
    apply (MCat _ _ (js ".") (js ".")); now apply Matches_Chr.
Qed.

Lemma Matches_openEnd (found : jsstring) :
  Matches (body openEndRegex) found <->
  exists w, found = js ".." ++ w ++ js "]" /\ forallb white_space w = true.
Proof.
  unfold openEndRegex, ws; simpl. split.
  - intro H.
    apply Matches_Cat in H as (s1 & s2 & -> & H1 & H2). apply Matches_Chr in H1 as ->.
    apply Matches_Cat in H2 as (s3 & s4 & -> & H3 & H4). apply Matches_Chr in H3 as ->.
    apply Matches_Cat in H4 as (w & s5 & -> & Hw & H5). apply Matches_Star_Cls in Hw.
    apply Matches_Chr in H5 as ->.
    exists w. now split.
  - intros (w & -> & Hw).
    apply (MCat _ _ (js ".")); [ now apply Matches_Chr |].
    apply (MCat _ _ (js ".")); [ now apply Matches_Chr |].
    apply MCat; [ now apply Matches_Star_Cls | now apply Matches_Chr ].
Qed.

End ConverterFacts.

(* ================================================================== *)
(** * Facts about the locale merge *)
(* ================================================================== *)

Module LodashFacts.

Lemma jsstring_eqb_eq (a b : jsstring) : jsstring_eqb a b = true <-> a = b.
Proof.
  revert b. induction a as [| x a IH]; destruct b as [| y b]; simpl;
    try (split; [ discriminate | discriminate ]); [ tauto |].
  unfold jschar_eqb. rewrite andb_true_iff, N.eqb_eq, IH. split.
  - intros [-> ->]. reflexivity.
  - intro H. injection H as -> ->. now split.
Qed.

Lemma jsstring_eqb_refl (a : jsstring) : jsstring_eqb a a = true.
Proof. now apply jsstring_eqb_eq. Qed.

Lemma flatten_zip (a b : list JsValue) :
  flatten (zip [JsArray a; JsArray b])
  = paired a b (Nat.max (List.length a) (List.length b)).
Proof.
  unfold zip, flatten, paired; simpl. rewrite Nat.max_0_r.
  induction (seq 0 (Nat.max (List.length a) (List.length b))) as [| i l IH];
    simpl; [ reflexivity |].
  now rewrite IH.
Qed.

Lemma paired_S (a b : list JsValue) (n : nat) :
  paired a b (S n)
  = nth 0 a JsUndefined :: nth 0 b JsUndefined :: paired (tl a) (tl b) n.
Proof.
  unfold paired. simpl. f_equal. f_equal.
  rewrite <- seq_shift, !flat_map_concat_map, map_map. f_equal.
  apply map_ext. intro i. destruct a, b; simpl; destruct i; reflexivity.
Qed.

Lemma interleave_nil_r (xs : list jsstring) : interleave xs [] = xs.
Proof. now destruct xs. Qed.

(** Pairing entry by entry, then dropping the holes and the empty strings,
    is interleaving the non-empty strings. *)
Lemma compact_paired (n : nat) (xs ys : list jsstring) :
  (List.length xs <= n)%nat -> (List.length ys <= n)%nat ->
  compact (paired (List.map JsString xs) (List.map JsString ys) n)
  = List.map JsString (filter nonEmpty (interleave xs ys)).
Proof.
  revert xs ys. induction n as [| n IH]; intros xs ys Hx Hy.
  - destruct xs, ys; simpl in *; try lia. reflexivity.
  - rewrite paired_S. unfold compact in *.
    destruct xs as [| x xs], ys as [| y ys].
    + pose proof (IH [] [] ltac:(simpl; lia) ltac:(simpl; lia)) as E.
      simpl in *. exact E.
    + pose proof (IH [] ys ltac:(simpl; lia) ltac:(simpl in *; lia)) as E.
      simpl in *. rewrite E. unfold nonEmpty. now destruct (truthy y).
    + pose proof (IH xs [] ltac:(simpl in *; lia) ltac:(simpl; lia)) as E.
      rewrite interleave_nil_r in E.
      simpl in *. rewrite E. unfold nonEmpty. now destruct (truthy x).
    + pose proof (IH xs ys ltac:(simpl in *; lia) ltac:(simpl in *; lia)) as E.
      simpl in *. rewrite E. unfold nonEmpty. now destruct (truthy x), (truthy y).
Qed.

Lemma existsb_strings (x : jsstring) (seen : list jsstring) :
  existsb (sameValueZero (JsString x)) (List.map JsString seen)
  = existsb (jsstring_eqb x) seen.
Proof. induction seen as [| s seen IH]; simpl; [ reflexivity | now rewrite IH ]. Qed.

Lemma uniq_from (l seen : list jsstring) :
  fold_left
    (fun result v => if existsb (sameValueZero v) result then result else result ++ [v])
    (List.map JsString l) (List.map JsString seen)
  = List.map JsString (seen ++ firstSeenFrom seen l).
Proof.
  revert seen. induction l as [| x l IH]; intro seen; simpl.
  - now rewrite app_nil_r.
  - rewrite existsb_strings. destruct (existsb (jsstring_eqb x) seen).
    + apply IH.
    + change [JsString x] with (List.map JsString [x]). rewrite <- map_app, IH.
      now rewrite <- app_assoc.
Qed.

Lemma uniq_strings (l : list jsstring) :
  uniq (List.map JsString l) = List.map JsString (firstSeen l).
Proof. exact (uniq_from l []). Qed.

End LodashFacts.

Import ConverterFacts.

(* ================================================================== *)
(** * The language of the grammar *)
(* ================================================================== *)

Module GrammarFacts.

(** Take a match apart along the constructors of its pattern. *)
Ltac unmatch :=
  repeat match goal with
    | H : Matches (Cat _ _) _ |- _ =>
        let s1 := fresh "s" in let s2 := fresh "s" in
        let H1 := fresh "M" in let H2 := fresh "M" in
        apply Matches_Cat in H as (s1 & s2 & -> & H1 & H2)
    | H : Matches (Alt _ _) _ |- _ => apply Matches_Alt in H as [H | H]
    | H : Matches Eps _ |- _ => apply Matches_Eps in H as ->
    | H : Matches (Chr _) _ |- _ => apply Matches_Chr in H as ->
    | H : Matches (Cls _) _ |- _ =>
        let c := fresh "c" in let Hc := fresh "Hc" in
        apply Matches_Cls in H as (c & -> & Hc)
    | H : Matches Void _ |- _ => now apply Matches_Void in H
    end.

Lemma only_eq (a : ascii) (c : jschar) : only a c = true <-> c = ch a.
Proof. unfold only, jschar_eqb. apply N.eqb_eq. Qed.

Lemma only_refl (a : ascii) : only a (ch a) = true.
Proof. now apply only_eq. Qed.

Lemma Matches_year (s : jsstring) :
  Matches yearPattern s <->
  exists y1 y2 y3 y4,
    s = [y1; y2; y3; y4] /\
    isDigit y1 = true /\ isDigit y2 = true /\ isDigit y3 = true /\ isDigit y4 = true.
Proof.
  unfold yearPattern, isDigit. cbv [Rep]. split.
  - intro H. unmatch. simpl. eauto 10.
  - intros (y1 & y2 & y3 & y4 & -> & H1 & H2 & H3 & H4).
    apply (MCat _ _ [y1]); [ now constructor |].
    apply (MCat _ _ [y2]); [ now constructor |].
    apply (MCat _ _ [y3] [y4]); now constructor.
Qed.

Lemma Matches_month (s : jsstring) :
  Matches monthPattern s <-> exists m1 m2, s = [m1; m2] /\ monthText m1 m2 = true.
Proof.
  unfold monthPattern, monthText. cbv [Seq]. split.
  - intro H. unmatch; simpl; do 2 eexists; (split; [ reflexivity |]);
      rewrite only_refl, Hc; simpl; rewrite ?orb_true_r; reflexivity.
  - intros (m1 & m2 & -> & H).
    apply orb_true_iff in H as [H | H];
      apply andb_true_iff in H as [H1 H2]; apply only_eq in H1; subst.
    + apply MAltL. apply (MCat _ _ [ch "0"] [m2]);
        [ now apply Matches_Chr | now constructor ].
    + apply MAltR. apply (MCat _ _ [ch "1"] [m2]);
        [ now apply Matches_Chr | now constructor ].
Qed.

Lemma Matches_day (s : jsstring) :
  Matches dayPattern s <-> exists d1 d2, s = [d1; d2] /\ dayText d1 d2 = true.
Proof.
  unfold dayPattern, dayText. cbv [Seq]. split.
  - intro H. unmatch; simpl; do 2 eexists; (split; [ reflexivity |]).
    + now rewrite Hc, Hc0.
    + rewrite only_refl, Hc. simpl. rewrite ?orb_true_r. reflexivity.
  - intros (d1 & d2 & -> & H).
    apply orb_true_iff in H as [H | H]; apply andb_true_iff in H as [H1 H2].
    + apply MAltL. apply (MCat _ _ [d1] [d2]); now constructor.
    + apply only_eq in H1; subst.
      apply MAltR. apply (MCat _ _ [ch "3"] [d2]);
        [ now apply Matches_Chr | now constructor ].
Qed.

Lemma date_unfold :
  date = Cat yearPattern
           (Opt (Cat (Chr "-") (Cat monthPattern (Opt (Cat (Chr "-") dayPattern))))).
Proof. reflexivity. Qed.

(** The [date] pattern matches the date texts. *)
Lemma Matches_date (s : jsstring) : Matches date s <-> dateText s = true.
Proof.
  rewrite date_unfold, Matches_Cat. split.
  - intros (y & rest & -> & Hy & Hrest).
    apply Matches_year in Hy as (y1 & y2 & y3 & y4 & -> & H1 & H2 & H3 & H4).
    apply Matches_Opt in Hrest as [Hrest | ->].
    + apply Matches_Cat in Hrest as (h & rest1 & -> & Hh & Hrest).
      apply Matches_Chr in Hh as ->.
      apply Matches_Cat in Hrest as (m & rest2 & -> & Hm & Hrest).
      apply Matches_month in Hm as (m1 & m2 & -> & Hm).
      apply Matches_Opt in Hrest as [Hrest | ->].
      * apply Matches_Cat in Hrest as (h' & d & -> & Hh & Hd).
        apply Matches_Chr in Hh as ->.
        apply Matches_day in Hd as (d1 & d2 & -> & Hd).
        simpl. now rewrite H1, H2, H3, H4, Hm, Hd.
      * simpl. now rewrite H1, H2, H3, H4, Hm.
    + simpl. now rewrite H1, H2, H3, H4.
  - intro H.
    destruct s as [| y1 [| y2 [| y3 [| y4 [| h1 [| m1 [| m2 [| h2 [| d1 [| d2 [| x s]]]]]]]]]]];
      cbn [dateText] in H; try discriminate H;
      repeat match goal with
        | H : _ && _ = true |- _ =>
            let H' := fresh "H" in apply andb_true_iff in H as [H H']
        end;
      repeat match goal with
        | H : only _ _ = true |- _ => apply only_eq in H; subst
        end.
    + exists [y1; y2; y3; y4], []. split; [ reflexivity |].
      split; [ apply Matches_year; eauto 10 | apply Matches_Opt; now right ].
    + exists [y1; y2; y3; y4], [ch "-"; m1; m2]. split; [ reflexivity |].
      split; [ apply Matches_year; eauto 10 |].
      apply Matches_Opt. left.
      apply (MCat _ _ [ch "-"] [m1; m2]); [ now apply Matches_Chr |].
      apply (MCat _ _ [m1; m2] []); [| apply Matches_Opt; now right ].
      apply Matches_month. eauto.
    + exists [y1; y2; y3; y4], [ch "-"; m1; m2; ch "-"; d1; d2].
      split; [ reflexivity |].
      split; [ apply Matches_year; eauto 10 |].
      apply Matches_Opt. left.
      apply (MCat _ _ [ch "-"] [m1; m2; ch "-"; d1; d2]); [ now apply Matches_Chr |].
      apply (MCat _ _ [m1; m2] [ch "-"; d1; d2]); [ apply Matches_month; eauto |].
      apply Matches_Opt. left.
      apply (MCat _ _ [ch "-"] [d1; d2]); [ now apply Matches_Chr |].
      apply Matches_day. eauto.
Qed.

(** ** What [cleanEdtf] keeps *)

Lemma isDigit_cases (c : jschar) :
  isDigit c = true ->
  (c = 48 \/ c = 49 \/ c = 50 \/ c = 51 \/ c = 52 \/
   c = 53 \/ c = 54 \/ c = 55 \/ c = 56 \/ c = 57)%N.
Proof.
  unfold isDigit, between. change (ch "0") with 48%N. change (ch "9") with 57%N.
  rewrite andb_true_iff, !N.leb_le. lia.
Qed.

Lemma dateChar_kept (c : jschar) : dateChar c = true -> modifierOrSpace c = false.
Proof.
  unfold dateChar. rewrite orb_true_iff, only_eq. intros [H | ->]; [| reflexivity ].
  apply isDigit_cases in H.
  repeat (destruct H as [-> | H]; [ reflexivity |]). now subst.
Qed.

Lemma dateChar_not_slash (c : jschar) : dateChar c = true -> c <> ch "/".
Proof.
  unfold dateChar. rewrite orb_true_iff, only_eq. intros [H | ->]; [| discriminate ].
  apply isDigit_cases in H.
  repeat (destruct H as [-> | H]; [ discriminate |]). now subst.
Qed.

Lemma dateText_dateChar (d : jsstring) : dateText d = true -> forallb dateChar d = true.
Proof.
  intro H.
  destruct d as [| y1 [| y2 [| y3 [| y4 [| h1 [| m1 [| m2 [| h2 [| d1 [| d2 [| x s]]]]]]]]]]];
    cbn [dateText] in H; try discriminate H;
    repeat match goal with
      | H : _ && _ = true |- _ =>
          let H' := fresh "H" in apply andb_true_iff in H as [H H']
      end;
    repeat match goal with
      | H : only _ _ = true |- _ => apply only_eq in H; subst
      | H : monthText _ _ = true |- _ =>
          apply orb_true_iff in H as [H | H];
          let H' := fresh "H" in apply andb_true_iff in H as [H H']
      | H : dayText _ _ = true |- _ =>
          apply orb_true_iff in H as [H | H];
          let H' := fresh "H" in apply andb_true_iff in H as [H H']
      end;
    repeat match goal with
      | H : between _ _ ?c = true |- _ =>
          assert (isDigit c = true)
            by (revert H; unfold isDigit, between;
                rewrite !andb_true_iff, !N.leb_le;
                change (ch "0") with 48%N; change (ch "1") with 49%N;
                change (ch "2") with 50%N; change (ch "9") with 57%N; lia);
          clear H
      end;
    cbn [forallb]; unfold dateChar;
    repeat match goal with H : isDigit _ = true |- _ => rewrite H; clear H end;
    reflexivity.
Qed.

Lemma remove_all_app (p : jschar -> bool) (a b : jsstring) :
  remove_all p (a ++ b) = remove_all p a ++ remove_all p b.
Proof. apply filter_app. Qed.

Lemma remove_all_dropped (p : jschar -> bool) (s : jsstring) :
  forallb p s = true -> remove_all p s = [].
Proof.
  induction s as [| c s IH]; simpl; [ reflexivity |].
  intro H. apply andb_true_iff in H as [Hc Hs]. rewrite Hc. simpl. now apply IH.
Qed.

Lemma remove_all_kept (p : jschar -> bool) (s : jsstring) :
  forallb (fun c => negb (p c)) s = true -> remove_all p s = s.
Proof.
  induction s as [| c s IH]; simpl; [ reflexivity |].
  intro H. apply andb_true_iff in H as [Hc Hs]. rewrite Hc. now rewrite IH.
Qed.

Lemma dateText_kept (d : jsstring) :
  dateText d = true -> remove_all modifierOrSpace d = d /\ ~ In (ch "/") d.
Proof.
  intro H. apply dateText_dateChar in H. rewrite forallb_forall in H. split.
  - apply remove_all_kept. apply forallb_forall. intros c Hc.
    now rewrite (dateChar_kept c (H c Hc)).
  - intro Hin. exact (dateChar_not_slash _ (H _ Hin) eq_refl).
Qed.

Lemma ws_dropped (s : jsstring) :
  Matches ws s -> remove_all modifierOrSpace s = [].
Proof.
  intro H. apply Matches_Star_Cls in H. apply remove_all_dropped.
  rewrite forallb_forall in *. intros c Hc.
  unfold modifierOrSpace, either. rewrite (H c Hc). apply orb_true_r.
Qed.

Lemma modifier_dropped (s : jsstring) :
  Matches (Opt modifier) s -> remove_all modifierOrSpace s = [].
Proof.
  intro H. apply Matches_Opt in H as [H | ->]; [| reflexivity ].
  apply Matches_Cls in H as (c & -> & Hc).
  unfold one_of in Hc. simpl in Hc. unfold jschar_eqb in Hc.
  rewrite !orb_true_iff, !N.eqb_eq in Hc.
  destruct Hc as [-> | [-> | [-> | Hc]]]; [ reflexivity .. | discriminate ].
Qed.

Lemma openStart_dropped (s : jsstring) :
  Matches (Opt openStart) s -> remove_all modifierOrSpace s = [].
Proof.
  intro H. apply Matches_Opt in H as [H | ->]; [| reflexivity ].
  cbv [openStart Seq] in H.
  apply Matches_Cat in H as (b & r & -> & Hb & H). apply Matches_Chr in Hb as ->.
  apply Matches_Opt in H as [H | ->]; [| reflexivity ].
  apply Matches_Cat in H as (w & r1 & -> & Hw & H).
  apply Matches_Cat in H as (p & q & -> & Hp & Hq).
  apply Matches_Chr in Hp as ->. apply Matches_Chr in Hq as ->.
  rewrite !remove_all_app, (ws_dropped _ Hw). reflexivity.
Qed.

Lemma openEnd_dropped (s : jsstring) :
  Matches (Opt openEnd) s -> remove_all modifierOrSpace s = [].
Proof.
  intro H. apply Matches_Opt in H as [H | ->]; [| reflexivity ].
  cbv [openEnd Seq] in H.
  apply Matches_Cat in H as (o & b & -> & H & Hb). apply Matches_Chr in Hb as ->.
  apply Matches_Opt in H as [H | ->]; [| reflexivity ].
  apply Matches_Cat in H as (p & r1 & -> & Hp & H).
  apply Matches_Cat in H as (q & w & -> & Hq & Hw).
  apply Matches_Chr in Hp as ->. apply Matches_Chr in Hq as ->.
  rewrite !remove_all_app, (ws_dropped _ Hw). reflexivity.
Qed.

Lemma edtfSection_clean (s : jsstring) :
  Matches edtfSection s ->
  dateText (remove_all modifierOrSpace s) = true.
Proof.
  intro H. cbv [edtfSection Seq] in H.
  apply Matches_Cat in H as (s1 & r1 & -> & H1 & H).
  apply Matches_Cat in H as (s2 & r2 & -> & H2 & H).
  apply Matches_Cat in H as (s3 & r3 & -> & H3 & H).
  apply Matches_Cat in H as (s4 & s5 & -> & H4 & H5).
  apply Matches_date in H3.
  rewrite !remove_all_app, (modifier_dropped _ H1), (ws_dropped _ H2),
    (ws_dropped _ H4), (modifier_dropped _ H5), app_nil_r.
  simpl. now rewrite (proj1 (dateText_kept _ H3)).
Qed.

(** A text that passes the grammar is, once cleaned, a date text, or two
    date texts around a [/]. *)
Lemma valid_clean (s : jsstring) :
  test edtfRegex s = true ->
  let clean := remove_all modifierOrSpace s in
  dateText clean = true \/
  exists d1 d2, clean = d1 ++ ch "/" :: d2 /\ dateText d1 = true /\ dateText d2 = true.
Proof.
  intros H clean. unfold edtfRegex in H. apply test_anchored in H.
  cbv [Seq] in H.
  apply Matches_Cat in H as (s1 & r1 & -> & H1 & H).
  apply Matches_Cat in H as (s2 & r2 & -> & H2 & H).
  apply Matches_Cat in H as (s3 & r3 & -> & H3 & H).
  apply Matches_Cat in H as (s4 & r4 & -> & H4 & H).
  apply Matches_Cat in H as (s5 & r5 & -> & H5 & H).
  apply Matches_Cat in H as (s6 & s7 & -> & H6 & H7).
  apply edtfSection_clean in H4.
  subst clean.
  rewrite !remove_all_app, (ws_dropped _ H1), (openStart_dropped _ H2),
    (ws_dropped _ H3), (ws_dropped _ H5), (ws_dropped _ H7), app_nil_r.
  simpl.
  apply Matches_Opt in H6 as [H6 | ->].
  - apply Matches_Alt in H6 as [H6 | H6].
    + right.
      apply Matches_Cat in H6 as (t1 & u1 & -> & T1 & H6).
      apply Matches_Cat in H6 as (t2 & t3 & -> & T2 & T3).
      apply Matches_Chr in T1 as ->. apply edtfSection_clean in T3.
      rewrite !remove_all_app, (ws_dropped _ T2). simpl.
      eexists _, _. split; [ reflexivity | now split ].
    + left. rewrite (openEnd_dropped _ H6), app_nil_r. exact H4.
  - left. simpl. rewrite app_nil_r. exact H4.
Qed.

Lemma remove_all_In (p : jschar -> bool) (s : jsstring) (c : jschar) :
  In c (remove_all p s) -> In c s.
Proof. unfold remove_all. rewrite filter_In. tauto. Qed.

(** A segment without [/] that passes the grammar is, once cleaned, one
    date text. *)
Lemma valid_segment_clean (s : jsstring) :
  test edtfRegex s = true -> ~ In (ch "/") s ->
  dateText (remove_all modifierOrSpace s) = true.
Proof.
  intros H Hs. destruct (valid_clean s H) as [Hd | (d1 & d2 & E & _)];
    [ exact Hd |].
  exfalso. apply Hs. apply (remove_all_In modifierOrSpace). rewrite E.
  apply in_or_app. right. now left.
Qed.

(** A date text passes the grammar as it is. *)
Lemma dateText_valid (d : jsstring) : dateText d = true -> test edtfRegex d = true.
Proof.
  intro H. apply Matches_date in H. unfold edtfRegex. apply test_anchored.
  cbv [Seq edtfSection].
  assert (W : Matches ws []) by constructor.
  assert (O : forall r, Matches (Opt r) []) by (intro r; apply Matches_Opt; now right).
  apply (MCat _ _ []); [ exact W |].
  apply (MCat _ _ []); [ apply O |].
  apply (MCat _ _ []); [ exact W |].
  rewrite <- (app_nil_r d) at 1.
  apply (MCat _ _ d []).
  - apply (MCat _ _ []); [ apply O |].
    apply (MCat _ _ []); [ exact W |].
    rewrite <- (app_nil_r d) at 1.
    apply (MCat _ _ d []); [ exact H |].
    apply (MCat _ _ [] []); [ exact W | apply O ].
  - apply (MCat _ _ []); [ exact W |].
    apply (MCat _ _ [] []); [ apply O | exact W ].
Qed.

End GrammarFacts.
Import GrammarFacts.

(* ================================================================== *)
(** * From the grammar to the calendar *)
(* ================================================================== *)

Module ResolverFacts.

Lemma between_bounds (lo hi : ascii) (c : jschar) :
  between lo hi c = true <-> (ch lo <= c /\ c <= ch hi)%N.
Proof. unfold between. now rewrite andb_true_iff, !N.leb_le. Qed.

Lemma digit_Some (c : jschar) :
  (48 <= c <= 57)%N -> digit c = Some (Z.of_N c - 48).
Proof.
  intro H. unfold digit.
  replace (between "0" "9" c) with true; [ reflexivity |].
  symmetry. apply between_bounds. exact H.
Qed.

(** The bounds that the date text puts on its characters. *)
Ltac char_bounds :=
  repeat match goal with
    | H : _ && _ = true |- _ =>
        let H' := fresh "H" in apply andb_true_iff in H as [H H']
    end;
  repeat match goal with
    | H : only _ _ = true |- _ => apply only_eq in H; subst
    | H : monthText _ _ = true |- _ =>
        apply orb_true_iff in H as [H | H];
        let H' := fresh "H" in apply andb_true_iff in H as [H H']
    | H : dayText _ _ = true |- _ =>
        apply orb_true_iff in H as [H | H];
        let H' := fresh "H" in apply andb_true_iff in H as [H H']
    end;
  repeat match goal with
    | H : isDigit _ = true |- _ => unfold isDigit in H
    | H : between _ _ _ = true |- _ =>
        apply between_bounds in H;
        change (ch "0") with 48%N in H; change (ch "1") with 49%N in H;
        change (ch "2") with 50%N in H; change (ch "9") with 57%N in H
    end.

(** What [moment.utc] reads in a date text: a year from 0 to 9999, a
    month from 0 to 11, a day from 1 to 31. *)
Lemma dateText_parsed (d : jsstring) :
  dateText d = true ->
  exists y m dd,
    parsedFields d (formatOf d) = Some (y, m, dd) /\
    0 <= y <= 9999 /\ 0 <= m <= 11 /\ 1 <= dd <= 31 /\
    (formatOf d = YYYY -> m = 0 /\ dd = 1) /\
    (formatOf d = YYYY_MM -> dd = 1).
Proof.
  intro H.
  destruct d as [| y1 [| y2 [| y3 [| y4 [| h1 [| m1 [| m2 [| h2 [| d1 [| d2 [| x s]]]]]]]]]]];
    cbn [dateText] in H; try discriminate H;
    char_bounds;
    cbn [formatOf List.length Nat.eqb parsedFields toInt toIntFrom];
    change (ch "0") with 48%N; change (ch "1") with 49%N; change (ch "3") with 51%N;
    rewrite ?digit_Some by lia;
    cbn [jschar_eqb andb]; rewrite ?N.eqb_refl; cbn [andb];
    do 3 eexists; (split; [ reflexivity |]);
    repeat split; try discriminate; lia.
Qed.

Lemma timeValue_range (y m d t : Z) :
  0 <= y <= 9999 -> 0 <= m <= 11 -> 1 <= d <= 31 -> 0 <= t < msPerDay ->
  Z.abs (timeValue (mkDateTime y m d t)) <= 8640000000000000.
Proof.
  intros Hy Hm Hd Ht. unfold timeValue, msPerDay in *; simpl.
  rewrite MakeDay_inrange by lia.
  pose proof (daysBeforeMonth_mono (isLeapYear y) 0 m ltac:(lia) ltac:(lia) ltac:(lia)) as H0.
  pose proof (daysBeforeMonth_mono (isLeapYear y) m 11 ltac:(lia) ltac:(lia) ltac:(lia)) as H1.
  cbn in H0, H1.
  assert (H11 : daysBeforeMonth (isLeapYear y) m <= 335)
    by (destruct (isLeapYear y); lia).
  unfold DayFromYear. Z.to_euclidean_division_equations. lia.
Qed.

Lemma timeClip_range (y m d t : Z) :
  0 <= y <= 9999 -> 0 <= m <= 11 -> 1 <= d <= 31 -> 0 <= t < msPerDay ->
  timeClip (mkDateTime y m d t) = At (mkDateTime y m d t).
Proof.
  intros Hy Hm Hd Ht. unfold timeClip.
  pose proof (timeValue_range y m d t Hy Hm Hd Ht) as H.
  apply Z.leb_le in H. now rewrite H.
Qed.

(** A date text is the text of a moment exactly when its day exists in its
    month. *)
Lemma dateText_utc (d : jsstring) :
  dateText d = true ->
  exists y m dd,
    parsedFields d (formatOf d) = Some (y, m, dd) /\
    0 <= y <= 9999 /\ 0 <= m <= 11 /\ 1 <= dd <= 31 /\
    utc d (formatOf d) =
      if daysInMonth y m <? dd then Invalid else At (mkDateTime y m dd 0).
Proof.
  intro H. destruct (dateText_parsed d H) as (y & m & dd & E & Hy & Hm & Hd & _).
  exists y, m, dd. repeat split; try assumption; try lia.
  unfold utc, overflows. rewrite E.
  replace (m <? 0) with false by (symmetry; apply Z.ltb_ge; lia).
  replace (11 <? m) with false by (symmetry; apply Z.ltb_ge; lia).
  replace (dd <? 1) with false by (symmetry; apply Z.ltb_ge; lia).
  simpl. destruct (daysInMonth y m <? dd); [ reflexivity |].
  apply timeClip_range; unfold msPerDay; lia.
Qed.

(** A year text resolves to the first and the last millisecond of its
    year. *)
Lemma year_text_range (d : jsstring) :
  dateText d = true -> formatOf d = YYYY ->
  exists y,
    0 <= y <= 9999 /\
    startOf year (utc d YYYY) = At (mkDateTime y 0 1 0) /\
    endOf year (utc d YYYY) = At (mkDateTime y 11 31 86399999).
Proof.
  intros H F. destruct (dateText_parsed d H) as (y & m & dd & E & Hy & _ & _ & Hf & _).
  destruct (Hf F) as [-> ->]. rewrite F in E.
  exists y. split; [ exact Hy |].
  unfold utc, overflows. rewrite E.
  rewrite (daysInMonth_table y 0) by lia. simpl.
  rewrite (timeClip_range y 0 1 0) by (unfold msPerDay; lia). simpl.
  rewrite (timeClip_range y 0 1 0) by (unfold msPerDay; lia).
  change (msPerDay - 1) with 86399999.
  rewrite (timeClip_range y 11 31 86399999) by (unfold msPerDay; lia).
  split; reflexivity.
Qed.

Lemma formatOf_YYYY (clean : jsstring) :
  formatOf clean = YYYY <-> List.length clean = 4%nat.
Proof.
  unfold formatOf. destruct (Nat.eqb_spec (List.length clean) 4) as [E | E].
  - tauto.
  - split; [| tauto ]. destruct (Nat.eqb (List.length clean) 7); discriminate.
Qed.

Lemma dateText_length (d : jsstring) :
  dateText d = true ->
  (List.length d = 4 \/ List.length d = 7 \/ List.length d = 10)%nat.
Proof.
  intro H.
  destruct d as [| y1 [| y2 [| y3 [| y4 [| h1 [| m1 [| m2 [| h2 [| d1 [| d2 [| x s]]]]]]]]]]];
    cbn [dateText] in H; try discriminate H; simpl; auto.
Qed.

(** The clean text of a parsed segment in the format [YYYY] is a year
    text. *)
Lemma clean_year_text (s : jsstring) :
  test edtfRegex s = true ->
  formatOf (remove_all modifierOrSpace s) = YYYY ->
  dateText (remove_all modifierOrSpace s) = true.
Proof.
  intros H F. destruct (valid_clean s H) as [Hd | (d1 & d2 & E & H1 & H2)];
    [ exact Hd |].
  apply formatOf_YYYY in F. rewrite E, length_app in F. simpl in F.
  apply dateText_length in H1, H2. lia.
Qed.

(** A segment that is not approximate and whose day exists in its month
    resolves to two valid moments, in order; one whose day does not exist,
    to two invalid moments. *)
Lemma existing_date_resolves
    (this : Converter) (edtfPart : jsstring) (r : IEdtfPartResult) :
  parseEdtfPart this edtfPart = Ok r ->
  ~ In (ch "/") (stripped this edtfPart) ->
  isApproximate r = false ->
  exists y m d,
    parsedFields (cleanEdtf r) (format r) = Some (y, m, d) /\
    (d <= daysInMonth y m ->
     isValid (minDate r) = true /\ isValid (maxDate r) = true /\
     Moment.le (minDate r) (maxDate r)) /\
    (daysInMonth y m < d -> minDate r = Invalid /\ maxDate r = Invalid).
Proof.
  intros H Hs Ha. apply parseEdtfPart_Ok in H.
  destruct H as (Hv & Hc & _ & Hf & _ & _ & _ & _ & Hmax & Hmin).
  rewrite Ha in Hmax, Hmin. rewrite Hc, Hf, Hmax, Hmin.
  set (clean := remove_all modifierOrSpace (stripped this edtfPart)) in *.
  pose proof (valid_segment_clean _ Hv Hs) as Hd. fold clean in Hd.
  destruct (dateText_utc clean Hd) as (y & m & d & E & Hy & Hm & Hdd & U).
  exists y, m, d. split; [ exact E |].
  pose proof (daysInMonth_bounds y m Hm) as Hb.
  rewrite U. split.
  - intro Hle. replace (daysInMonth y m <? d) with false
      by (symmetry; apply Z.ltb_ge; lia).
    assert (S : exists a, startOf (unitOf (formatOf clean)) (At (mkDateTime y m d 0)) = At a).
    { destruct (unitOf (formatOf clean)); simpl;
        rewrite timeClip_range by (unfold msPerDay; lia); eauto. }
    assert (F : exists b, endOf (unitOf (formatOf clean)) (At (mkDateTime y m d 0)) = At b).
    { destruct (unitOf (formatOf clean)); simpl;
        rewrite timeClip_range by (unfold msPerDay; lia); eauto. }
    destruct S as (a & Ea). destruct F as (b & Eb). rewrite Ea, Eb.
    repeat split. unfold Moment.le; simpl.
    apply (unit_le (unitOf (formatOf clean)) (At (mkDateTime y m d 0)) a b);
      [| exact Ea | exact Eb ].
    intros x Hx. injection Hx as <-. unfold wellFormed, msPerDay; simpl. lia.
  - intro Hgt. replace (daysInMonth y m <? d) with true
      by (symmetry; apply Z.ltb_lt; lia).
    split; reflexivity.
Qed.

End ResolverFacts.
Import ResolverFacts.

(* ================================================================== *)
(** * Facts about the validator *)
(* ================================================================== *)

Module ValidatorFacts.

(** ** The validator, piece by piece *)

Lemma split_pieces (sep : jschar) (s : jsstring) :
  Forall (fun piece => ~ In sep piece) (fst (split sep s) :: snd (split sep s)).
Proof.
  induction s as [| c s IH]; simpl.
  - repeat constructor. tauto.
  - destruct (split sep s) as [piece rest]. simpl in IH.
    unfold jschar_eqb. destruct (N.eqb_spec c sep) as [-> | Hne]; simpl.
    + constructor; [ tauto | exact IH ].
    + inversion IH as [| ? ? Hp Hr]; subst. constructor; [| exact Hr ].
      simpl. intros [E | Hin]; [ now apply Hne | now apply Hp ].
Qed.

(** [validateEdtf] does not look beyond the second piece: whatever follows
    a second [/] does not change its result. *)
Lemma validateEdtf_two_pieces (first second later : jsstring) :
  ~ In (ch "/") first -> ~ In (ch "/") second ->
  validateEdtf (first ++ js "/" ++ second ++ js "/" ++ later)
  = validateEdtf (first ++ js "/" ++ second).
Proof.
  intros H1 H2. unfold validateEdtf. change (js "/") with [ch "/"]. simpl.
  rewrite !split_app by assumption.
  rewrite (split_no_separator _ second) by assumption. reflexivity.
Qed.

(** In the two pieces that [validateEdtf] checks, the month is at most 12
    and the day at most 31. *)
Lemma validateEdtf_checked_pieces (edtf piece : jsstring) :
  validateEdtf edtf = Ok tt ->
  piece = fst (split (ch "/") edtf) \/
  (hd_error (snd (split (ch "/") edtf)) = Some piece /\ piece <> []) ->
  let clean := remove_all modifierOrSpace piece in
  exists y m d,
    parsedFields clean (formatOf clean) = Some (y, m, d) /\
    0 <= y <= 9999 /\ 1 <= m + 1 <= 12 /\ 1 <= d <= 31.
Proof.
  intros H Hp clean.
  assert (V : test edtfRegex piece = true /\ ~ In (ch "/") piece).
  { pose proof (split_pieces (ch "/") edtf) as Hs.
    unfold validateEdtf in H.
    destruct (split (ch "/") edtf) as [first rest]; simpl in *.
    inversion Hs as [| ? ? Hf Hr]; subst.
    destruct (validateEdtfPart first) as [[] |] eqn:E1; simpl in H; [| discriminate ].
    destruct Hp as [-> | [Hh Hne]].
    - split; [ now apply validateEdtfPart_Ok | exact Hf ].
    - destruct rest as [| second rest']; simpl in Hh; [ discriminate |].
      injection Hh as ->. inversion Hr; subst.
      destruct piece as [| c piece]; [ congruence |]. simpl in H.
      split; [ now apply validateEdtfPart_Ok | assumption ]. }
  destruct V as [V1 V2].
  pose proof (valid_segment_clean piece V1 V2) as Hd. fold clean in Hd.
  destruct (dateText_parsed clean Hd) as (y & m & d & E & Hy & Hm & Hdd & _).
  exists y, m, d. repeat split; try assumption; lia.
Qed.

(** ** The day pattern *)

(** For a four-digit year and a month from 01 to 12, the text
    [YYYY-MM-DD] passes the grammar exactly when its two day digits match
    [[0-2][1-9]|3[0-1]]. *)
Lemma day_accepted_iff (y1 y2 y3 y4 m1 m2 d1 d2 : jschar) :
  isDigit y1 = true -> isDigit y2 = true -> isDigit y3 = true -> isDigit y4 = true ->
  monthText m1 m2 = true ->
  isDigit d1 = true -> isDigit d2 = true ->
  validateEdtfPart [y1; y2; y3; y4; ch "-"; m1; m2; ch "-"; d1; d2] = Ok tt
  <-> dayText d1 d2 = true.
Proof.
  intros Y1 Y2 Y3 Y4 M D1 D2.
  set (s := [y1; y2; y3; y4; ch "-"; m1; m2; ch "-"; d1; d2]).
  assert (T : dateText s = dayText d1 d2).
  { unfold s. cbn [dateText]. now rewrite Y1, Y2, Y3, Y4, M, !only_refl. }
  assert (C : forallb dateChar s = true).
  { unfold s, dateChar. cbn [forallb].
    assert (isDigit m1 = true /\ isDigit m2 = true) as [M1 M2].
    { clear T. char_bounds; split; apply between_bounds;
        change (ch "0") with 48%N; change (ch "1") with 49%N;
        change (ch "9") with 57%N; lia. }
    now rewrite Y1, Y2, Y3, Y4, M1, M2, D1, D2, !only_refl, !orb_true_r. }
  rewrite validateEdtfPart_Ok, <- T. split.
  - intro H. rewrite forallb_forall in C.
    assert (K : remove_all modifierOrSpace s = s).
    { apply remove_all_kept. apply forallb_forall. intros c Hc.
      now rewrite (dateChar_kept c (C c Hc)). }
    rewrite <- K. apply valid_segment_clean; [ exact H |].
    intro Hin. exact (dateChar_not_slash _ (C _ Hin) eq_refl).
  - apply dateText_valid.
Qed.

(** The days 10 and 20 are rejected in every year and month. *)
Lemma day_10_20_rejected (y1 y2 y3 y4 m1 m2 : jschar) :
  isDigit y1 = true -> isDigit y2 = true -> isDigit y3 = true -> isDigit y4 = true ->
  monthText m1 m2 = true ->
  validateEdtfPart ([y1; y2; y3; y4; ch "-"; m1; m2] ++ js "-10")
    = Throw (InvalidEdtf ([y1; y2; y3; y4; ch "-"; m1; m2] ++ js "-10")) /\
  validateEdtfPart ([y1; y2; y3; y4; ch "-"; m1; m2] ++ js "-20")
    = Throw (InvalidEdtf ([y1; y2; y3; y4; ch "-"; m1; m2] ++ js "-20")).
Proof.
  intros Y1 Y2 Y3 Y4 M.
  split.
  - pose proof (day_accepted_iff y1 y2 y3 y4 m1 m2 (ch "1") (ch "0")
                  Y1 Y2 Y3 Y4 M eq_refl eq_refl) as H.
    change (dayText (ch "1") (ch "0")) with false in H.
    simpl. unfold validateEdtfPart in *.
    destruct (test edtfRegex _); [| reflexivity ].
    assert (false = true) by (now apply H). discriminate.
  - pose proof (day_accepted_iff y1 y2 y3 y4 m1 m2 (ch "2") (ch "0")
                  Y1 Y2 Y3 Y4 M eq_refl eq_refl) as H.
    change (dayText (ch "2") (ch "0")) with false in H.
    simpl. unfold validateEdtfPart in *.
    destruct (test edtfRegex _); [| reflexivity ].
    assert (false = true) by (now apply H). discriminate.
Qed.

End ValidatorFacts.

Import ValidatorFacts.
Import LodashFacts.

(* ================================================================== *)
(** * Properties of the converter *)
(* ================================================================== *)

(** ** edtfToDate *)

(** C1: for every text that [parseEdtf] accepts, [edtfToDate] returns
    [{min: null, max: primary.maxDate}] when the primary segment has
    [hasOpenStart]; else [{min: primary.minDate, max: null}] when it has
    [hasOpenEnd]; else [min = primary.minDate] and [max] the secondary
    segment's [maxDate] when there is a secondary segment, the primary's
    otherwise.  Of the secondary segment only [maxDate] is read, its open
    flags never. *)
Theorem edtfToDate_combination
    (this : Converter) (edtf : jsstring) (parsed : IParseEdtfResult) :
  parseEdtf this edtf = Ok parsed ->
  let primary := primaryPart parsed in
  edtfToDate this edtf =
    Ok (if hasOpenStart primary
        then {| min := None; max := Some (maxDate primary) |}
        else if hasOpenEnd primary
        then {| min := Some (minDate primary); max := None |}
        else {| min := Some (minDate primary);
                max := Some (match secondaryPart parsed with
                             | Some secondary => maxDate secondary
                             | None => maxDate primary
                             end) |})
  /\
  (forall other : IParseEdtfResult,
      primaryPart other = primary ->
      option_map maxDate (secondaryPart other)
        = option_map maxDate (secondaryPart parsed) ->
      combine other = combine parsed).
Proof.
  intros H primary. split.
  - unfold edtfToDate. rewrite H. simpl. unfold combine. fold primary.
    destruct (hasOpenStart primary); [ reflexivity |].
    destruct (hasOpenEnd primary); [ reflexivity |].
    destruct (secondaryPart parsed); reflexivity.
  - intros other Hp Hs. unfold combine. rewrite Hp. fold primary.
    destruct (hasOpenStart primary); [ reflexivity |].
    destruct (hasOpenEnd primary); [ reflexivity |].
    destruct (secondaryPart other), (secondaryPart parsed); simpl in Hs;
      try discriminate; [ injection Hs as -> |]; reflexivity.
Qed.

Lemma edtfToDate_combination_witness :
  exists parsed,
    parseEdtf sampleConverter (js "1930/1935") = Ok parsed /\
    edtfToDate sampleConverter (js "1930/1935") =
      Ok {| min := Some (At (mkDateTime 1930 0 1 0));
            max := Some (At (mkDateTime 1935 11 31 86399999)) |}.
Proof.
  eexists. split; [ reflexivity |].
  refine (eq_trans (proj1 (edtfToDate_combination sampleConverter (js "1930/1935") _ eq_refl)) _).
  reflexivity.
Defined.

(** ** The resolved range *)

(** C2: for a segment parsed as approximate, with the variance [v] that is
    configured for the unit [u] of the segment's format (years for [YYYY],
    months for [YYYY-MM], days for [YYYY-MM-DD]), [minDate] is the start of
    the unit of the base instant moved back by [v] units and [maxDate] the
    end of the unit of the base instant moved forward by [v] units; with
    [v = 0] these are the start and the end of the unit of the base instant,
    as for a segment that is not approximate. *)
Theorem approximate_range
    (this : Converter) (edtfPart : jsstring) (r : IEdtfPartResult) :
  parseEdtfPart this edtfPart = Ok r ->
  isApproximate r = true ->
  let u := unitOf (format r) in
  let v := varianceOf (options this) (format r) in
  let base := utc (cleanEdtf r) (format r) in
  match format r with
  | YYYY => u = year /\ v = years (approximateVariance (options this))
  | YYYY_MM => u = month /\ v = months (approximateVariance (options this))
  | YYYY_MM_DD => u = day /\ v = days (approximateVariance (options this))
  end /\
  minDate r = startOf u (subtract v u base) /\
  maxDate r = endOf u (add v u base) /\
  (v = 0 -> minDate r = startOf u base /\ maxDate r = endOf u base).
Proof.
  intros H Ha u v base.
  apply parseEdtfPart_Ok in H.
  destruct H as (_ & Hc & _ & Hf & _ & _ & _ & _ & Hmax & Hmin).
  rewrite Ha in Hmax, Hmin.
  subst u v base. rewrite Hc, Hf.
  split; [ destruct (formatOf _); split; reflexivity |].
  split; [ exact Hmin |]. split; [ exact Hmax |].
  intro Hv. rewrite Hmin, Hmax, Hv.
  now rewrite subtract_zero, add_zero.
Qed.

Lemma approximate_range_witness :
  exists r,
    parseEdtfPart sampleConverter (js "~1930-05-03") = Ok r /\
    minDate r = At (mkDateTime 1930 3 30 0) /\
    maxDate r = At (mkDateTime 1930 4 6 86399999).
Proof.
  eexists. split; [ reflexivity |].
  pose proof (approximate_range sampleConverter (js "~1930-05-03") _ eq_refl eq_refl)
    as (_ & Hmin & Hmax & _).
  split; [ rewrite Hmin | rewrite Hmax ]; reflexivity.
Defined.

(** C3, as the code has it: for a segment parsed as not approximate,
    [minDate] is the start and [maxDate] the end of the same unit of the
    same base instant, the unit being that of the segment's format (for
    [YYYY]: January 1st 00:00:00.000 and December 31st 23:59:59.999 of the
    year); and for every parsed segment, approximate or not, whose variance
    is not negative and whose two resolved moments are valid, [minDate <=
    maxDate].  (A segment such as 1930-02-31 passes the grammar and resolves
    to two invalid moments, which are not ordered.) *)
Theorem resolved_range_ordered
    (this : Converter) (edtfPart : jsstring) (r : IEdtfPartResult) :
  parseEdtfPart this edtfPart = Ok r ->
  let u := unitOf (format r) in
  let v := varianceOf (options this) (format r) in
  let base := utc (cleanEdtf r) (format r) in
  (isApproximate r = false ->
   minDate r = startOf u base /\ maxDate r = endOf u base) /\
  (isApproximate r = false -> format r = YYYY ->
   exists y,
     0 <= y <= 9999 /\
     minDate r = At (mkDateTime y 0 1 0) /\
     maxDate r = At (mkDateTime y 11 31 86399999)) /\
  (0 <= v ->
   isValid (minDate r) = true -> isValid (maxDate r) = true ->
   Moment.le (minDate r) (maxDate r)).
Proof.
  intros H u v base.
  apply parseEdtfPart_Ok in H.
  destruct H as (Hvalid & Hc & _ & Hf & _ & _ & _ & _ & Hmax & Hmin).
  subst u v base. rewrite Hc, Hf.
  set (clean := remove_all modifierOrSpace (stripped this edtfPart)) in *.
  set (u := unitOf (formatOf clean)) in *.
  set (v := varianceOf (options this) (formatOf clean)) in *.
  set (base := utc clean (formatOf clean)) in *.
  assert (Hbase : forall d, base = At d -> wellFormed d).
  { intros d Hd. exact (utc_wellFormed _ _ _ Hd). }
  split; [| split ].
  - intro Ha. rewrite Ha in Hmax, Hmin. now split.
  - intros Ha Hy. rewrite Ha in Hmax, Hmin.
    pose proof (clean_year_text _ Hvalid Hy) as Hd.
    destruct (year_text_range clean Hd Hy) as (y & Ry & Rmin & Rmax).
    exists y. subst u base. rewrite Hy in Hmin, Hmax. simpl in Hmin, Hmax.
    split; [ exact Ry |]. split; congruence.
  - intros Hv Vmin Vmax.
    destruct (minDate r) as [| a] eqn:Ea; [ discriminate |].
    destruct (maxDate r) as [| b] eqn:Eb; [ discriminate |].
    unfold Moment.le; simpl.
    destruct (isApproximate r).
    + exact (window_le u v base a b Hbase Hv (eq_sym Hmin) (eq_sym Hmax)).
    + exact (unit_le u base a b Hbase (eq_sym Hmin) (eq_sym Hmax)).
Qed.

Lemma resolved_range_ordered_witness :
  exists r,
    parseEdtfPart sampleConverter (js "~1930-05") = Ok r /\
    Moment.le (minDate r) (maxDate r).
Proof.
  eexists. split; [ reflexivity |].
  apply (proj2 (proj2 (resolved_range_ordered sampleConverter (js "~1930-05") _ eq_refl)));
    [ vm_compute; discriminate | reflexivity | reflexivity ].
Defined.

(** C3 as the specification states it fails: the segment 1930-02-31 is
    parsed, and its [minDate] is not below its [maxDate]. *)
Lemma resolved_range_not_always_ordered :
  match parseEdtfPart sampleConverter (js "1930-02-31") with
  | Ok r => 0 <= varianceOf (options sampleConverter) (format r) /\
            ~ Moment.le (minDate r) (maxDate r)
  | Throw _ => False
  end.
Proof. vm_compute. split; [ discriminate | tauto ]. Qed.

(** ** The validator *)

(** C4, at the failing input: [validateEdtf] passes a text with two [/]
    whose third piece has month 13 and day 45; it looks at the first two
    pieces only.  [parseEdtf] rejects the same text. *)
Theorem validateEdtf_ignores_later_pieces :
  validateEdtf (js "1930/1935/1940-13-45") = Ok tt /\
  parseEdtf sampleConverter (js "1930/1935/1940-13-45")
    = Throw (InvalidEdtf (js "1940-13-45")) /\
  validateEdtf (js "1930/1935/1940") = Ok tt /\
  validateEdtf (js "1930-13") = Throw (InvalidEdtf (js "1930-13")) /\
  validateEdtf (js "1930-05-32") = Throw (InvalidEdtf (js "1930-05-32")).
Proof. repeat split; vm_compute; reflexivity. Qed.

(** C5, at the failing inputs: the days 10 and 20 do not pass the grammar,
    the other days from 01 to 31 do, and so does 02-31. *)
Theorem days_10_and_20_rejected :
  validateEdtfPart (js "1930-05-10") = Throw (InvalidEdtf (js "1930-05-10")) /\
  validateEdtfPart (js "1930-05-20") = Throw (InvalidEdtf (js "1930-05-20")) /\
  List.map (fun d => validateEdtfPart (js "1930-05-" ++ js d))
    ["01"; "02"; "03"; "04"; "05"; "06"; "07"; "08"; "09";
     "11"; "12"; "13"; "14"; "15"; "16"; "17"; "18"; "19";
     "21"; "22"; "23"; "24"; "25"; "26"; "27"; "28"; "29"; "30"; "31"]%string
  = repeat (Ok tt) 29 /\
  validateEdtfPart (js "1930-02-31") = Ok tt /\
  validateEdtfPart (js "1930-05-32") = Throw (InvalidEdtf (js "1930-05-32")).
Proof. repeat split; vm_compute; reflexivity. Qed.

(** ** The locale merge *)

(** C6, as the code has it: when the value already merged under a key is a
    list, the result is the entries of the merged list and of the incoming
    list taken in turn (first of each, second of each, ...), with the empty
    and the duplicate entries dropped and the order of the first occurrences
    kept; when it is a single string, the result is the list of that string
    followed by the incoming value. *)
Theorem locale_merge_interleaves
    (key : jsstring) (xs ys : list jsstring) (s : jsstring) (incoming : JsValue) :
  localeCustomizer (strings xs) (strings ys) = strings (interleaved xs ys) /\
  get (mergeLocales [[(key, strings xs)]; [(key, strings ys)]]) key
    = strings (interleaved xs ys) /\
  localeCustomizer (JsString s) incoming = JsArray [JsString s; incoming] /\
  get (mergeLocales [[(key, JsString s)]; [(key, incoming)]]) key
    = JsArray [JsString s; incoming].
Proof.
  assert (E : localeCustomizer (strings xs) (strings ys) = strings (interleaved xs ys)).
  { unfold localeCustomizer, strings, interleaved; simpl.
    rewrite flatten_zip, !length_map.
    rewrite compact_paired by lia. now rewrite uniq_strings. }
  split; [ exact E |]. split; [| split; [ reflexivity |] ].
  - unfold mergeLocales, mergeWith; simpl.
    rewrite jsstring_eqb_refl; simpl. rewrite E. simpl.
    now rewrite jsstring_eqb_refl.
  - unfold mergeLocales, mergeWith; simpl.
    rewrite jsstring_eqb_refl; simpl. now rewrite jsstring_eqb_refl.
Qed.

(** C6 as the specification states it fails: two packs with two keywords
    each under one key give the keywords in turn, not one list after the
    other. *)
Lemma locale_merge_is_not_concatenation :
  get (mergeLocales [[(js "approximate", strings [js "circa"; js "about"])];
                     [(js "approximate", strings [js "vers"; js "environ"])]])
      (js "approximate")
  = strings [js "circa"; js "vers"; js "about"; js "environ"]
  /\
  concatenated [js "circa"; js "about"] [js "vers"; js "environ"]
  = [js "circa"; js "about"; js "vers"; js "environ"]
  /\
  get (mergeLocales [[(js "approximate", strings [js "circa"; js "about"])];
                     [(js "approximate", strings [js "vers"; js "environ"])]])
      (js "approximate")
  <> strings (concatenated [js "circa"; js "about"] [js "vers"; js "environ"]).
Proof.
  split; [ vm_compute; reflexivity |].
  split; [ vm_compute; reflexivity | vm_compute; discriminate ].
Qed.

(** ** Errors of edtfToText *)

(** C7, as the code has it: when a segment of the text fails the grammar,
    [edtfToText] throws the [InvalidEdtf] error of [parseEdtf] for that
    segment; nothing is rendered.  (What is left out of the rendered text is
    a secondary segment that is absent.) *)
Theorem edtfToText_propagates
    (momentFormat : jsstring -> Format -> option jsstring -> jsstring)
    (this : Converter) (edtf : jsstring) :
  Exists (fun piece => validateEdtfPart (stripped this piece) <> Ok tt) (pieces edtf) ->
  exists piece,
    In piece (pieces edtf) /\
    validateEdtfPart (stripped this piece) = Throw (InvalidEdtf (stripped this piece)) /\
    parseEdtf this edtf = Throw (InvalidEdtf (stripped this piece)) /\
    edtfToText momentFormat this edtf = Throw (InvalidEdtf (stripped this piece)).
Proof.
  intro H.
  assert (H' : Exists (fun piece => test edtfRegex (stripped this piece) = false)
                      (pieces edtf)).
  { eapply Exists_impl; [| exact H ]. intros piece Hp. simpl in Hp.
    rewrite validateEdtfPart_Ok in Hp. now destruct (test edtfRegex _). }
  destruct (parseEdtf_Throw this edtf H') as (piece & Hin & Ht & Hp).
  exists piece. split; [ exact Hin |]. split; [| split; [ exact Hp |] ].
  - unfold validateEdtfPart. now rewrite Ht.
  - unfold edtfToText. now rewrite Hp.
Qed.

Lemma edtfToText_propagates_witness :
  exists piece,
    edtfToText plainFormat sampleConverter (js "1930/abc")
      = Throw (InvalidEdtf (stripped sampleConverter piece)).
Proof.
  destruct (edtfToText_propagates plainFormat sampleConverter (js "1930/abc"))
    as (piece & _ & _ & _ & H).
  - apply Exists_cons_tl, Exists_cons_hd. vm_compute. discriminate.
  - exists piece. exact H.
Defined.

(** C7 as the specification states it fails: the text [1930/abc] has a
    valid first segment, and [edtfToText] throws instead of rendering it. *)
Lemma edtfToText_does_not_drop_invalid_segment :
  validateEdtfPart (js "1930") = Ok tt /\
  validateEdtfPart (js "abc") = Throw (InvalidEdtf (js "abc")) /\
  edtfToText plainFormat sampleConverter (js "1930/abc")
    = Throw (InvalidEdtf (js "abc")).
Proof. repeat split; vm_compute; reflexivity. Qed.

(** A text whose segments are valid is rendered. *)
Example edtfToText_renders :
  edtfToText plainFormat sampleConverter (js "~1930/[..1935-05?")
  = Ok (js "around 1930 to open start maybe 1935-05").
Proof. vm_compute. reflexivity. Qed.

(** ** The built-in modifiers *)

(** C8, as the code has it: [hasOpenStart] is set exactly when the segment
    begins with [\[], white space if any, and [..]; [hasOpenEnd] exactly
    when the segment ends with [..], white space if any, and [\]].  A
    leading [\[] alone and a trailing [..] alone set neither. *)
Theorem open_flags_detection
    (this : Converter) (edtfPart : jsstring) (r : IEdtfPartResult) :
  parseEdtfPart this edtfPart = Ok r ->
  let segment := stripped this edtfPart in
  (hasOpenStart r = true <->
   exists w rest,
     segment = js "[" ++ w ++ js ".." ++ rest /\ forallb white_space w = true) /\
  (hasOpenEnd r = true <->
   exists before w,
     segment = before ++ js ".." ++ w ++ js "]" /\ forallb white_space w = true).
Proof.
  intros H segment. apply parseEdtfPart_Ok in H.
  destruct H as (_ & _ & _ & _ & He & Hs & _).
  fold segment in He, Hs. rewrite He, Hs. clear He Hs. split.
  - change openStartRegex with (mkRegExp true (body openStartRegex) false).
    rewrite test_prefix. split.
    + intros (found & rest & E & H). apply Matches_openStart in H as (w & -> & Hw).
      exists w, rest. split; [| exact Hw ].
      rewrite E. now rewrite <- !app_assoc.
    + intros (w & rest & E & Hw). exists (js "[" ++ w ++ js ".."), rest. split.
      * rewrite E. now rewrite <- !app_assoc.
      * apply Matches_openStart. now exists w.
  - change openEndRegex with (mkRegExp false (body openEndRegex) true).
    rewrite test_suffix. split.
    + intros (before & found & E & H). apply Matches_openEnd in H as (w & -> & Hw).
      now exists before, w.
    + intros (before & w & E & Hw). exists before, (js ".." ++ w ++ js "]").
      split; [ exact E |]. apply Matches_openEnd. now exists w.
Qed.

Lemma open_flags_detection_witness :
  exists r,
    parseEdtfPart sampleConverter (js "[ ..1930]") = Ok r /\
    hasOpenStart r = true.
Proof.
  eexists. split; [ reflexivity |].
  apply (proj1 (open_flags_detection sampleConverter (js "[ ..1930]") _ eq_refl)).
  exists (js " "), (js "1930]"). split; reflexivity.
Defined.

(** C8 as the specification states it fails: the segment [\[1930] is
    parsed and has a leading [\[], yet [hasOpenStart] is not set; and the
    segment [1930..], with its trailing [..] alone, is not parsed at all. *)
Lemma leading_bracket_alone_not_open_start :
  leadingBracket (js "[1930") = true /\
  match parseEdtfPart sampleConverter (js "[1930") with
  | Ok r => hasOpenStart r = false
  | Throw _ => False
  end /\
  trailingDots (js "1930..") = true /\
  parseEdtfPart sampleConverter (js "1930..") = Throw (InvalidEdtf (js "1930..")).
Proof. repeat split; vm_compute; reflexivity. Qed.

(** C9: for every parsed segment, custom modifiers removed, [isApproximate]
    is set exactly when the segment contains [~] or [%], and [isUncertain]
    exactly when it contains [?] or [%]; a [%] sets both. *)
Theorem approximate_uncertain_detection
    (this : Converter) (edtfPart : jsstring) (r : IEdtfPartResult) :
  parseEdtfPart this edtfPart = Ok r ->
  let segment := stripped this edtfPart in
  (isApproximate r = true <-> In (ch "~") segment \/ In (ch "%") segment) /\
  (isUncertain r = true <-> In (ch "?") segment \/ In (ch "%") segment) /\
  (In (ch "%") segment -> isApproximate r = true /\ isUncertain r = true).
Proof.
  intros H segment. apply parseEdtfPart_Ok in H.
  destruct H as (_ & _ & _ & _ & _ & _ & Ha & Hu & _).
  fold segment in Ha, Hu.
  assert (A : isApproximate r = true <-> In (ch "~") segment \/ In (ch "%") segment).
  { rewrite Ha. unfold approximateRegex. rewrite test_class. split.
    - intros (c & Hin & Hc). apply one_of_tilde_percent in Hc as [-> | ->]; auto.
    - intros [Hin | Hin]; eexists; (split; [ exact Hin | reflexivity ]). }
  assert (U : isUncertain r = true <-> In (ch "?") segment \/ In (ch "%") segment).
  { rewrite Hu. unfold uncertainRegex. rewrite test_class. split.
    - intros (c & Hin & Hc). apply one_of_question_percent in Hc as [-> | ->]; auto.
    - intros [Hin | Hin]; eexists; (split; [ exact Hin | reflexivity ]). }
  split; [ exact A |]. split; [ exact U |].
  intro Hp. split; [ apply A | apply U ]; now right.
Qed.

Lemma approximate_uncertain_detection_witness :
  exists r,
    parseEdtfPart sampleConverter (js "%1930") = Ok r /\
    isApproximate r = true /\ isUncertain r = true.
Proof.
  eexists. split; [ reflexivity |].
  apply (proj2 (proj2 (approximate_uncertain_detection
                         sampleConverter (js "%1930") _ eq_refl))).
  vm_compute. tauto.
Defined.

(** The two flags take all four combinations. *)
Example flags_independent :
  List.map
    (fun s => match parseEdtfPart sampleConverter (js s) with
              | Ok r => Some (isApproximate r, isUncertain r)
              | Throw _ => None
              end)
    ["1930"; "~1930"; "1930?"; "%1930"; "~1930?"]%string
  = [Some (false, false); Some (true, false); Some (false, true);
     Some (true, true); Some (true, true)].
Proof. vm_compute. reflexivity. Qed.

(** ** A trailing separator *)

(** C10: a segment that passes the grammar, followed by a [/]:
    [validateEdtf] passes, the empty second piece being skipped, while
    [parseEdtf], and so [edtfToDate] and [edtfToText], throw [InvalidEdtf]
    on the empty second piece.  (No custom modifier recognises the segment
    or the empty text, as with the default options.) *)
Theorem trailing_separator_accepted_by_validateEdtf_only
    (momentFormat : jsstring -> Format -> option jsstring -> jsstring)
    (this : Converter) (segment : jsstring) :
  validateEdtfPart segment = Ok tt ->
  ~ In (ch "/") segment ->
  untouched this segment ->
  untouched this [] ->
  let edtf := segment ++ js "/" in
  validateEdtf edtf = Ok tt /\
  parseEdtf this edtf = Throw (InvalidEdtf []) /\
  edtfToDate this edtf = Throw (InvalidEdtf []) /\
  edtfToText momentFormat this edtf = Throw (InvalidEdtf []).
Proof.
  intros Hv Hs Hu He edtf.
  assert (Esplit : split (ch "/") edtf = (segment, [[]])).
  { unfold edtf. change (js "/") with [ch "/"]. now rewrite split_app. }
  assert (Eparse : parseEdtf this edtf = Throw (InvalidEdtf [])).
  { unfold parseEdtf. rewrite Esplit.
    destruct (parseEdtfPart_total this segment) as [(r & -> & _) | [_ Hr]].
    - simpl.
      destruct (parseEdtfPart_total this []) as [(r' & _ & Hr') | [-> _]].
      + rewrite stripped_untouched in Hr' by exact He. discriminate.
      + rewrite stripped_untouched by exact He. reflexivity.
    - rewrite stripped_untouched in Hr by exact Hu.
      apply validateEdtfPart_Ok in Hv. congruence. }
  split; [| split; [ exact Eparse | split ] ].
  - unfold validateEdtf. rewrite Esplit, Hv. reflexivity.
  - unfold edtfToDate. now rewrite Eparse.
  - unfold edtfToText. now rewrite Eparse.
Qed.

Lemma trailing_separator_witness :
  validateEdtf (js "1930/") = Ok tt /\
  parseEdtf sampleConverter (js "1930/") = Throw (InvalidEdtf []) /\
  edtfToDate sampleConverter (js "1930/") = Throw (InvalidEdtf []) /\
  edtfToText plainFormat sampleConverter (js "1930/") = Throw (InvalidEdtf []).
Proof.
  apply (trailing_separator_accepted_by_validateEdtf_only
           plainFormat sampleConverter (js "1930")).
  - vm_compute. reflexivity.
  - vm_compute. intuition discriminate.
  - constructor.
  - constructor.
Defined.

(** ** Worked examples *)

(** The example of the documentation of [approximateVariance]: with a
    variance of 5 days, [~1930-05-03] ranges from 1930-04-28 to
    1930-05-08. *)
Example approximateVariance_documented :
  edtfToDate
    {| options := {| approximateVariance := {| days := 5; months := 3; years := 3 |};
                     customModifiers := [];
                     locales := [js "en"] |};
       localeData := sampleLocale |}
    (js "~1930-05-03")
  = Ok {| min := Some (At (mkDateTime 1930 3 28 0));
          max := Some (At (mkDateTime 1930 4 8 86399999)) |}.
Proof. vm_compute. reflexivity. Qed.

Example edtfToDate_year :
  edtfToDate sampleConverter (js "1930")
  = Ok {| min := Some (At (mkDateTime 1930 0 1 0));
          max := Some (At (mkDateTime 1930 11 31 86399999)) |}.
Proof. vm_compute. reflexivity. Qed.

Example edtfToDate_open_start :
  edtfToDate sampleConverter (js "[..1930]")
  = Ok {| min := None; max := Some (At (mkDateTime 1930 11 31 86399999)) |}.
Proof. vm_compute. reflexivity. Qed.

Example edtfToDate_open_end :
  edtfToDate sampleConverter (js "[1930..]")
  = Ok {| min := Some (At (mkDateTime 1930 0 1 0)); max := None |}.
Proof. vm_compute. reflexivity. Qed.

Example edtfToDate_approximate_month :
  edtfToDate sampleConverter (js "~1930-01")
  = Ok {| min := Some (At (mkDateTime 1929 9 1 0));
          max := Some (At (mkDateTime 1930 3 30 86399999)) |}.
Proof. vm_compute. reflexivity. Qed.

(** Time values: 1970-01-01, 2000-03-01 and 1930-01-01, in milliseconds. *)
Example timeValue_epoch :
  List.map timeValue [mkDateTime 1970 0 1 0; mkDateTime 2000 2 1 0; mkDateTime 1930 0 1 0]
  = [0; 951868800000; -1262304000000].
Proof. vm_compute. reflexivity. Qed.


(* ================================================================== *)
(** * Facts about the pieces of a text *)
(* ================================================================== *)

Module PipelineFacts.

Lemma split_rest_nil (sep : jschar) (s : jsstring) :
  snd (split sep s) = [] <-> ~ In sep s.
Proof.
  split.
  - induction s as [| c s IH]; simpl; [ tauto |].
    destruct (split sep s) as [piece rest]. unfold jschar_eqb.
    destruct (N.eqb_spec c sep) as [-> | Hne]; simpl; [ discriminate |].
    intros H [E | Hin]; [ now apply Hne | now apply IH ].
  - intro H. now rewrite split_no_separator.
Qed.

Lemma passes_iff (this : Converter) (piece : jsstring) :
  passes this piece <-> exists r, parseEdtfPart this piece = Ok r.
Proof.
  unfold passes. rewrite validateEdtfPart_Ok. split.
  - intro H. destruct (parseEdtfPart_total this piece) as [(r & E & _) | [_ E]];
      [ eauto | congruence ].
  - intros (r & E). now apply parseEdtfPart_Ok in E.
Qed.

Lemma passes_plain (this : Converter) (piece : jsstring) :
  customModifiers (options this) = [] ->
  (passes this piece <-> validateEdtfPart piece = Ok tt).
Proof.
  intro H. unfold passes. rewrite stripped_untouched; [ tauto |].
  unfold untouched. rewrite H. constructor.
Qed.

Lemma mapM_Ok_iff (this : Converter) (l : list jsstring) :
  (exists rs, mapM (parseEdtfPart this) l = Ok rs) <-> Forall (passes this) l.
Proof.
  induction l as [| p l IH]; simpl.
  - split; [ constructor | eauto ].
  - split.
    + intros (rs & H).
      destruct (parseEdtfPart this p) as [r |] eqn:E; simpl in H; [| discriminate ].
      destruct (mapM (parseEdtfPart this) l) as [rs' |] eqn:E'; simpl in H;
        [| discriminate ].
      constructor; [ apply passes_iff; eauto | apply IH; eauto ].
    + intro H. inversion H as [| ? ? Hp Hl]; subst.
      apply passes_iff in Hp as (r & ->). apply IH in Hl as (rs & ->).
      simpl. eauto.
Qed.

Lemma mapM_length (this : Converter) (l : list jsstring) (rs : list IEdtfPartResult) :
  mapM (parseEdtfPart this) l = Ok rs -> List.length rs = List.length l.
Proof.
  revert rs. induction l as [| p l IH]; simpl; intros rs H.
  - now injection H as <-.
  - destruct (parseEdtfPart this p) as [r |]; simpl in H; [| discriminate ].
    destruct (mapM (parseEdtfPart this) l) as [rs' |]; simpl in H; [| discriminate ].
    injection H as <-. simpl. now rewrite (IH rs' eq_refl).
Qed.

(** The error of [map] is that of the first entry that fails. *)
Lemma mapM_first_failure (this : Converter) (l : list jsstring) (e : Error) :
  mapM (parseEdtfPart this) l = Throw e ->
  exists before piece after,
    l = before ++ piece :: after /\
    Forall (passes this) before /\
    parseEdtfPart this piece = Throw e.
Proof.
  induction l as [| p l IH]; simpl; intro H; [ discriminate |].
  destruct (parseEdtfPart this p) as [r |] eqn:E; simpl in H.
  - destruct (mapM (parseEdtfPart this) l) as [rs |] eqn:E'; simpl in H;
      [ discriminate |].
    injection H as <-.
    destruct (IH eq_refl) as (before & piece & after & -> & Hb & Hp).
    exists (p :: before), piece, after. repeat split; [| exact Hp ].
    constructor; [ apply passes_iff; eauto | exact Hb ].
  - injection H as <-. exists [], p, l. repeat split; [ constructor | exact E ].
Qed.

Lemma parseEdtf_as_mapM (this : Converter) (edtf : jsstring) :
  parseEdtf this edtf =
  bind (mapM (parseEdtfPart this) (pieces edtf))
       (fun rs => match rs with
                  | primary :: others =>
                      Ok {| primaryPart := primary; secondaryPart := hd_error others |}
                  | [] => Throw (InvalidEdtf [])
                  end).
Proof.
  unfold parseEdtf, pieces. destruct (split (ch "/") edtf) as [first rest]; simpl.
  destruct (parseEdtfPart this first); simpl; [| reflexivity ].
  destruct (mapM (parseEdtfPart this) rest); reflexivity.
Qed.

(** [parseEdtf] returns a result exactly when every piece passes. *)
Lemma parseEdtf_Ok_iff (this : Converter) (edtf : jsstring) :
  (exists parsed, parseEdtf this edtf = Ok parsed) <->
  Forall (passes this) (pieces edtf).
Proof.
  rewrite <- mapM_Ok_iff, parseEdtf_as_mapM. split.
  - intros (parsed & H). destruct (mapM (parseEdtfPart this) (pieces edtf)); eauto.
    discriminate.
  - intros (rs & H). rewrite H. simpl.
    apply mapM_length in H. destruct rs; [ discriminate | eauto ].
Qed.

End PipelineFacts.
Import PipelineFacts.

(* ================================================================== *)
(** * Facts about one segment *)
(* ================================================================== *)

Module SegmentFacts.

Lemma formatOf_length (clean : jsstring) :
  (formatOf clean = YYYY <-> List.length clean = 4%nat) /\
  (formatOf clean = YYYY_MM <-> List.length clean = 7%nat) /\
  (formatOf clean = YYYY_MM_DD <->
   List.length clean <> 4%nat /\ List.length clean <> 7%nat).
Proof.
  unfold formatOf.
  destruct (Nat.eqb_spec (List.length clean) 4) as [E4 | E4];
    [| destruct (Nat.eqb_spec (List.length clean) 7) as [E7 | E7] ];
    repeat split; intros; try discriminate; try lia; try reflexivity.
Qed.

(** The clean text of a valid segment in the format [YYYY-MM] is a date
    text. *)
Lemma clean_month_text (s : jsstring) :
  test edtfRegex s = true ->
  formatOf (remove_all modifierOrSpace s) = YYYY_MM ->
  dateText (remove_all modifierOrSpace s) = true.
Proof.
  intros H F. destruct (valid_clean s H) as [Hd | (d1 & d2 & E & H1 & H2)];
    [ exact Hd |].
  apply formatOf_length in F. rewrite E, length_app in F. simpl in F.
  apply dateText_length in H1, H2. lia.
Qed.

(** White space is none of the modifier symbols. *)
Lemma white_space_symbol (c : jschar) :
  white_space c = true -> one_of "~%?[]." c = false.
Proof.
  intro H. unfold one_of, jschar_eqb. simpl.
  repeat match goal with
    | |- context [N.eqb c ?x] =>
        destruct (N.eqb_spec c x) as [-> | _]; [ discriminate H |]
    end.
  reflexivity.
Qed.

Lemma dateChar_symbol (c : jschar) :
  dateChar c = true -> one_of "~%?[]." c = false.
Proof.
  unfold dateChar. rewrite orb_true_iff, only_eq. intros [H | ->]; [| reflexivity ].
  apply isDigit_cases in H.
  repeat (destruct H as [-> | H]; [ reflexivity |]). now subst.
Qed.

Lemma one_of_sub (small big : string) (c : jschar) :
  (forall x, In x (js small) -> In x (js big)) ->
  one_of big c = false -> one_of small c = false.
Proof.
  intros Hsub H. unfold one_of in *.
  destruct (existsb (jschar_eqb c) (js small)) eqn:E; [| reflexivity ].
  apply existsb_exists in E as (x & Hx & Ex).
  assert (existsb (jschar_eqb c) (js big) = true)
    by (apply existsb_exists; exists x; split; [ now apply Hsub | exact Ex ]).
  congruence.
Qed.

(** The four built-in tests on a text none of whose code units is a
    modifier symbol. *)
Lemma plain_flags (s : jsstring) :
  (forall c, In c s -> one_of "~%?[]." c = false) ->
  test approximateRegex s = false /\ test uncertainRegex s = false /\
  test openStartRegex s = false /\ test openEndRegex s = false.
Proof.
  intro H. repeat split.
  - destruct (test approximateRegex s) eqn:E; [| reflexivity ].
    apply test_class in E as (c & Hin & Hc).
    rewrite (one_of_sub "~%" "~%?[]." c) in Hc; [ discriminate | | now apply H ].
    simpl. tauto.
  - destruct (test uncertainRegex s) eqn:E; [| reflexivity ].
    apply test_class in E as (c & Hin & Hc).
    rewrite (one_of_sub "?%" "~%?[]." c) in Hc; [ discriminate | | now apply H ].
    simpl. tauto.
  - destruct (test openStartRegex s) eqn:E; [| reflexivity ].
    change openStartRegex with (mkRegExp true (body openStartRegex) false) in E.
    apply test_prefix in E as (found & after & -> & Hf).
    apply Matches_openStart in Hf as (w & -> & _).
    specialize (H (ch "[") ltac:(now left)). discriminate H.
  - destruct (test openEndRegex s) eqn:E; [| reflexivity ].
    change openEndRegex with (mkRegExp false (body openEndRegex) true) in E.
    apply test_suffix in E as (before & found & -> & Hf).
    apply Matches_openEnd in Hf as (w & -> & _).
    assert (Hin : In (ch ".") (before ++ js ".." ++ w ++ js "]"))
      by (apply in_or_app; right; now left).
    specialize (H _ Hin). discriminate H.
Qed.

(** A date text alone is parsed as it is, with no flag set. *)
Lemma parse_dateText (this : Converter) (d : jsstring) :
  untouched this d ->
  dateText d = true ->
  parseEdtfPart this d =
    Ok {| cleanEdtf := d; detectedModifiers := []; format := formatOf d;
          hasOpenEnd := false; hasOpenStart := false;
          isApproximate := false; isUncertain := false;
          maxDate := endOf (unitOf (formatOf d)) (utc d (formatOf d));
          minDate := startOf (unitOf (formatOf d)) (utc d (formatOf d)) |}.
Proof.
  intros Hu Hd. unfold parseEdtfPart, detectCustomModifiers.
  rewrite detect_untouched_from by exact Hu.
  unfold validateEdtfPart. rewrite (dateText_valid d Hd). simpl.
  pose proof (dateText_dateChar d Hd) as Hc. rewrite forallb_forall in Hc.
  destruct (plain_flags d) as (-> & -> & -> & ->).
  { intros c Hin. apply dateChar_symbol. now apply Hc. }
  now rewrite (proj1 (dateText_kept d Hd)).
Qed.

(** A white-space code unit in front of a valid text leaves it valid. *)
Lemma valid_after_space (c : jschar) (s : jsstring) :
  white_space c = true -> test edtfRegex s = true -> test edtfRegex (c :: s) = true.
Proof.
  intros Hc H. unfold edtfRegex in *. apply test_anchored in H. apply test_anchored.
  cbv [Seq] in *.
  apply Matches_Cat in H as (w & rest & -> & Hw & Hrest).
  change (c :: w ++ rest) with ((c :: w) ++ rest). constructor; [| exact Hrest ].
  apply Matches_Star_Cls in Hw. apply Matches_Star_Cls. simpl. now rewrite Hc.
Qed.

(** ... and changes none of the built-in tests but that of the open
    start, which fails. *)
Lemma flags_after_space (c : jschar) (s : jsstring) :
  white_space c = true ->
  test approximateRegex (c :: s) = test approximateRegex s /\
  test uncertainRegex (c :: s) = test uncertainRegex s /\
  test openStartRegex (c :: s) = false /\
  test openEndRegex (c :: s) = test openEndRegex s.
Proof.
  intro Hc. pose proof (white_space_symbol c Hc) as Hs.
  assert (class : forall p : string,
             (forall x, In x (js p) -> In x (js "~%?[].")) ->
             test (mkRegExp false (Cls (one_of p)) false) (c :: s)
             = test (mkRegExp false (Cls (one_of p)) false) s).
  { intros p Hp. apply eq_true_iff_eq. rewrite !test_class. split.
    - intros (x & [<- | Hin] & Hx).
      + rewrite (one_of_sub p "~%?[]." c Hp Hs) in Hx. discriminate.
      + eauto.
    - intros (x & Hin & Hx). exists x. split; [ now right | exact Hx ]. }
  repeat split.
  - apply class. simpl. tauto.
  - apply class. simpl. tauto.
  - destruct (test openStartRegex (c :: s)) eqn:E; [| reflexivity ].
    change openStartRegex with (mkRegExp true (body openStartRegex) false) in E.
    apply test_prefix in E as (found & after & E & Hf).
    apply Matches_openStart in Hf as (w & -> & _).
    injection E as -> _. discriminate Hs.
  - apply eq_true_iff_eq.
    change openEndRegex with (mkRegExp false (body openEndRegex) true).
    rewrite !test_suffix. split.
    + intros (before & found & E & Hf).
      destruct before as [| x before]; simpl in E.
      * apply Matches_openEnd in Hf as (w & -> & _).
        injection E as -> _. discriminate Hs.
      * injection E as _ ->. eauto.
    + intros (before & found & -> & Hf). exists (c :: before), found. now split.
Qed.

(** The loop over the custom modifiers, one modifier at a time. *)
Lemma detect_from (mods detected : list ICustomModifier) (edtfPart : jsstring) :
  fold_left
    (fun '(detected, part) m =>
       if modifierRegex m part then (detected ++ [m], removeModifierFn m part)
       else (detected, part))
    mods (detected, edtfPart)
  = (detected ++ fst (detectCustomModifiers mods edtfPart),
     snd (detectCustomModifiers mods edtfPart)).
Proof.
  unfold detectCustomModifiers.
  revert detected edtfPart. induction mods as [| m mods IH]; intros detected edtfPart.
  - simpl. now rewrite app_nil_r.
  - simpl. destruct (modifierRegex m edtfPart).
    + rewrite (IH (detected ++ [m])), (IH [m]). simpl. now rewrite <- app_assoc.
    + apply IH.
Qed.

Lemma detect_cons (m : ICustomModifier) (mods : list ICustomModifier)
    (edtfPart : jsstring) :
  detectCustomModifiers (m :: mods) edtfPart =
  if modifierRegex m edtfPart
  then (m :: fst (detectCustomModifiers mods (removeModifierFn m edtfPart)),
        snd (detectCustomModifiers mods (removeModifierFn m edtfPart)))
  else detectCustomModifiers mods edtfPart.
Proof.
  unfold detectCustomModifiers at 1. simpl.
  destruct (modifierRegex m edtfPart); [| reflexivity ].
  now rewrite detect_from.
Qed.

End SegmentFacts.
Import SegmentFacts.

(* ================================================================== *)
(** * More facts about the locale merge *)
(* ================================================================== *)

Module LocaleFacts.

Lemma existsb_jsstring (x : jsstring) (l : list jsstring) :
  existsb (jsstring_eqb x) l = true <-> In x l.
Proof.
  rewrite existsb_exists. split.
  - intros (y & Hin & E). apply jsstring_eqb_eq in E. now subst.
  - intro H. exists x. split; [ exact H | apply jsstring_eqb_refl ].
Qed.

Lemma firstSeenFrom_In (l seen : list jsstring) (x : jsstring) :
  In x (firstSeenFrom seen l) <-> In x l /\ ~ In x seen.
Proof.
  revert seen. induction l as [| y l IH]; intro seen; simpl; [ tauto |].
  destruct (existsb (jsstring_eqb y) seen) eqn:E.
  - apply existsb_jsstring in E. rewrite IH. split.
    + tauto.
    + intros [[-> | H] Hn]; tauto.
  - assert (Hy : ~ In y seen).
    { intro H. apply existsb_jsstring in H. congruence. }
    simpl. rewrite IH, in_app_iff. simpl. split.
    + intros [<- | (H & Hn)]; tauto.
    + intros [[-> | H] Hn]; [ tauto |].
      destruct (jsstring_eqb y x) eqn:Eyx.
      * apply jsstring_eqb_eq in Eyx. tauto.
      * right. split; [ exact H |]. intros [Hs | [-> | []]]; [ tauto |].
        rewrite jsstring_eqb_refl in Eyx. discriminate.
Qed.

Lemma firstSeenFrom_NoDup (l seen : list jsstring) : NoDup (firstSeenFrom seen l).
Proof.
  revert seen. induction l as [| y l IH]; intro seen; simpl; [ constructor |].
  destruct (existsb (jsstring_eqb y) seen); [ apply IH |].
  constructor; [| apply IH ].
  rewrite firstSeenFrom_In, in_app_iff. simpl. tauto.
Qed.

Lemma interleave_In (xs ys : list jsstring) (x : jsstring) :
  In x (interleave xs ys) <-> In x xs \/ In x ys.
Proof.
  revert ys. induction xs as [| a xs IH]; intro ys; simpl; [ tauto |].
  destruct ys as [| b ys]; simpl; [ tauto |]. rewrite IH. tauto.
Qed.

Lemma localeCustomizer_strings (xs ys : list jsstring) :
  localeCustomizer (strings xs) (strings ys) = strings (interleaved xs ys).
Proof.
  unfold localeCustomizer, strings, interleaved; simpl.
  rewrite flatten_zip, !length_map.
  rewrite compact_paired by lia. now rewrite uniq_strings.
Qed.

Lemma nonEmpty_iff (x : jsstring) : nonEmpty x = true <-> x <> [].
Proof. destruct x; simpl; split; congruence. Qed.

(** ** Objects *)

Lemma get_assign (o : JsObject) (k k' : jsstring) (v : JsValue) :
  get (assign o k v) k' = if jsstring_eqb k k' then v else get o k'.
Proof.
  induction o as [| [k0 w] o IH]; simpl.
  - reflexivity.
  - destruct (jsstring_eqb k0 k) eqn:E0; simpl.
    + apply jsstring_eqb_eq in E0. subst k0.
      now destruct (jsstring_eqb k k').
    + rewrite IH.
      destruct (jsstring_eqb k k') eqn:E2; destruct (jsstring_eqb k0 k') eqn:E1;
        try reflexivity.
      apply jsstring_eqb_eq in E1, E2. subst k0 k'.
      rewrite jsstring_eqb_refl in E0. discriminate.
Qed.

Lemma get_absent (o : JsObject) (k : jsstring) :
  ~ In k (keys o) -> get o k = JsUndefined.
Proof.
  induction o as [| [k0 w] o IH]; simpl; [ reflexivity |].
  intro H. destruct (jsstring_eqb k0 k) eqn:E.
  - apply jsstring_eqb_eq in E. tauto.
  - apply IH. tauto.
Qed.

Lemma mergeSource_other (f : JsValue -> JsValue -> JsValue)
    (source obj : JsObject) (k : jsstring) :
  ~ In k (keys source) -> get (mergeSource f obj source) k = get obj k.
Proof.
  unfold mergeSource. revert obj.
  induction source as [| [k0 v0] source IH]; intros obj H; simpl; [ reflexivity |].
  simpl in H. rewrite IH by tauto. rewrite get_assign.
  destruct (jsstring_eqb k0 k) eqn:E; [| reflexivity ].
  apply jsstring_eqb_eq in E. tauto.
Qed.

Lemma mergeSource_key (f : JsValue -> JsValue -> JsValue)
    (source obj : JsObject) (k : jsstring) :
  NoDup (keys source) -> In k (keys source) ->
  get (mergeSource f obj source) k =
    if isUndefined (f (get obj k) (get source k)) then get source k
    else f (get obj k) (get source k).
Proof.
  revert obj. induction source as [| [k0 v0] source IH]; intros obj Hn Hin;
    [ destruct Hin |].
  simpl in Hn, Hin. inversion Hn as [| ? ? Hk0 Hn']; subst.
  change (mergeSource f obj ((k0, v0) :: source))
    with (mergeSource f
            (assign obj k0 (if isUndefined (f (get obj k0) v0) then v0
                            else f (get obj k0) v0)) source).
  change (get ((k0, v0) :: source) k)
    with (if jsstring_eqb k0 k then v0 else get source k).
  destruct (jsstring_eqb k0 k) eqn:E.
  - apply jsstring_eqb_eq in E. subst k0.
    rewrite mergeSource_other by exact Hk0.
    rewrite get_assign, jsstring_eqb_refl. reflexivity.
  - assert (Hin' : In k (keys source)).
    { destruct Hin as [-> | H]; [| exact H ].
      rewrite jsstring_eqb_refl in E. discriminate. }
    rewrite IH by assumption. now rewrite get_assign, E.
Qed.

End LocaleFacts.
Import LocaleFacts.

(* ================================================================== *)
(** * Facts about the words of a text *)
(* ================================================================== *)

Module WordFacts.

Lemma findIndex_first {A : Type} (f : A -> bool) (before after : list A) (x : A) :
  Forall (fun a => f a = false) before -> f x = true ->
  findIndex f (before ++ x :: after) = Some (List.length before).
Proof.
  induction 1 as [| a before Ha _ IH]; intro Hx; simpl.
  - now rewrite Hx.
  - now rewrite Ha, IH.
Qed.

Lemma findIndex_none {A : Type} (f : A -> bool) (l : list A) :
  Forall (fun a => f a = false) l -> findIndex f l = None.
Proof.
  induction 1 as [| a l Ha _ IH]; simpl; [ reflexivity |].
  now rewrite Ha, IH.
Qed.

Lemma interior_around {A : Type} (first : A) (start after : list A) (d last : A) :
  interior ((first :: start) ++ d :: after ++ [last]) = start ++ d :: after.
Proof.
  unfold interior. simpl.
  change (start ++ d :: after ++ [last]) with (start ++ (d :: after) ++ [last]).
  rewrite app_assoc, removelast_last. reflexivity.
Qed.

End WordFacts.
Import WordFacts.

(* ================================================================== *)
(** * Further properties of the converter *)
(* ================================================================== *)

(** ** parseEdtf *)

(** X1: [parseEdtf] returns a result exactly when every piece of the text,
    custom modifiers removed, passes the grammar. *)
Theorem parseEdtf_accepts_iff (this : Converter) (edtf : jsstring) :
  (exists parsed, parseEdtf this edtf = Ok parsed) <->
  Forall (passes this) (pieces edtf).
Proof. apply parseEdtf_Ok_iff. Qed.

(** X2: the error of [parseEdtf] is that of the first piece, in the order of
    the text, that fails the grammar; it carries that piece as it is after
    the custom modifiers are removed, not as it was given. *)
Theorem parseEdtf_first_failure (this : Converter) (edtf : jsstring) (e : Error) :
  parseEdtf this edtf = Throw e ->
  exists before piece after,
    pieces edtf = before ++ piece :: after /\
    Forall (passes this) before /\
    validateEdtfPart (stripped this piece) = Throw e /\
    e = InvalidEdtf (stripped this piece).
Proof.
  rewrite parseEdtf_as_mapM. intro H.
  destruct (mapM (parseEdtfPart this) (pieces edtf)) as [rs |] eqn:E; simpl in H.
  - apply mapM_length in E. destruct rs; [| discriminate ].
    unfold pieces in E. discriminate.
  - injection H as ->.
    destruct (mapM_first_failure _ _ _ E) as (before & piece & after & Hl & Hb & Hp).
    exists before, piece, after. repeat split; try assumption.
    + apply parseEdtfPart_Throw in Hp as [-> Ht].
      unfold validateEdtfPart. now rewrite Ht.
    + now apply parseEdtfPart_Throw in Hp as [-> _].
Qed.

Lemma parseEdtf_first_failure_witness :
  exists before piece after,
    pieces (js "1930/19x5/abc") = before ++ piece :: after /\
    piece = js "19x5" /\
    parseEdtf sampleConverter (js "1930/19x5/abc") = Throw (InvalidEdtf piece).
Proof.
  destruct (parseEdtf_first_failure sampleConverter (js "1930/19x5/abc")
              (InvalidEdtf (js "19x5")) eq_refl)
    as (before & piece & after & Hl & _ & _ & He).
  exists before, piece, after. split; [ exact Hl |].
  injection He as He. change (stripped sampleConverter piece) with piece in He.
  split; [ now symmetry | now rewrite <- He ].
Defined.

(** X3: the secondary segment of a parse result is absent exactly when the
    text has no [/]. *)
Theorem secondaryPart_absent_iff
    (this : Converter) (edtf : jsstring) (parsed : IParseEdtfResult) :
  parseEdtf this edtf = Ok parsed ->
  (secondaryPart parsed = None <-> ~ In (ch "/") edtf).
Proof.
  intro H. rewrite <- split_rest_nil.
  unfold parseEdtf in H. destruct (split (ch "/") edtf) as [first rest]; simpl in *.
  destruct (parseEdtfPart this first) as [primary |]; simpl in H; [| discriminate ].
  destruct (mapM (parseEdtfPart this) rest) as [others |] eqn:E; simpl in H;
    [| discriminate ].
  injection H as <-. simpl. apply mapM_length in E.
  destruct others, rest; simpl in *; try discriminate; split; congruence.
Qed.

Lemma secondaryPart_absent_iff_witness :
  exists parsed,
    parseEdtf sampleConverter (js "1930") = Ok parsed /\
    secondaryPart parsed = None.
Proof.
  eexists. split; [ reflexivity |].
  apply (proj2 (secondaryPart_absent_iff sampleConverter (js "1930") _ eq_refl)).
  vm_compute. intuition discriminate.
Defined.

(** X4: without custom modifiers, a text that [parseEdtf] accepts is a text
    that [validateEdtf] accepts; and a text that [validateEdtf] accepts is
    accepted by [parseEdtf] when it has at most one [/] and does not end
    with it. *)
Theorem parseEdtf_stricter_than_validateEdtf (this : Converter) (edtf : jsstring) :
  customModifiers (options this) = [] ->
  ((exists parsed, parseEdtf this edtf = Ok parsed) -> validateEdtf edtf = Ok tt) /\
  (validateEdtf edtf = Ok tt ->
   snd (split (ch "/") edtf) = [] \/
   (exists second, snd (split (ch "/") edtf) = [second] /\ second <> []) ->
   exists parsed, parseEdtf this edtf = Ok parsed).
Proof.
  intro Hm. rewrite parseEdtf_Ok_iff. unfold pieces, validateEdtf.
  destruct (split (ch "/") edtf) as [first rest]; simpl. split.
  - intro H. inversion H as [| ? ? Hf Hr]; subst.
    apply (proj1 (passes_plain this first Hm)) in Hf. rewrite Hf. simpl.
    destruct rest as [| second rest]; [ reflexivity |].
    inversion Hr as [| ? ? Hs _]; subst. apply (proj1 (passes_plain this second Hm)) in Hs.
    rewrite Hs. now destruct (truthy second).
  - intros H Hr.
    destruct (validateEdtfPart first) as [[] |] eqn:Ef; simpl in H; [| discriminate ].
    constructor; [ now apply passes_plain |].
    destruct Hr as [-> | (second & -> & Hne)]; [ constructor |].
    constructor; [| constructor ]. apply passes_plain; [ exact Hm |].
    destruct second; [ congruence | exact H ].
Qed.

Lemma parseEdtf_stricter_than_validateEdtf_witness :
  validateEdtf (js "~1930/1935-05") = Ok tt.
Proof.
  apply (proj1 (parseEdtf_stricter_than_validateEdtf
                  sampleConverter (js "~1930/1935-05") eq_refl)).
  eexists. reflexivity.
Defined.

(** X5: a text with an empty piece (an empty text, a leading or a trailing
    [/], two [/] in a row) is rejected by [parseEdtf], unless a custom
    modifier recognises the empty text. *)
Theorem parseEdtf_rejects_empty_piece (this : Converter) (edtf : jsstring) :
  untouched this [] ->
  In [] (pieces edtf) ->
  exists piece, parseEdtf this edtf = Throw (InvalidEdtf (stripped this piece)).
Proof.
  intros Hu Hin.
  destruct (parseEdtf_Throw this edtf) as (piece & _ & _ & H); [| eauto ].
  apply Exists_exists. exists []. split; [ exact Hin |].
  now rewrite stripped_untouched.
Qed.

Lemma parseEdtf_rejects_empty_piece_witness :
  exists piece,
    parseEdtf sampleConverter (js "1930//1935")
    = Throw (InvalidEdtf (stripped sampleConverter piece)).
Proof.
  apply (parseEdtf_rejects_empty_piece sampleConverter (js "1930//1935")).
  - constructor.
  - vm_compute. tauto.
Defined.

(** ** One segment *)

(** X6: a segment without [/] that is parsed has a clean text of the shape
    YYYY, YYYY-MM or YYYY-MM-DD, and its format is the one of that shape:
    4, 7 or 10 characters long; the year read is from 0 to 9999, the month
    from 1 to 12 and the day from 1 to 31. *)
Theorem parsed_clean_text
    (this : Converter) (edtfPart : jsstring) (r : IEdtfPartResult) :
  parseEdtfPart this edtfPart = Ok r ->
  ~ In (ch "/") (stripped this edtfPart) ->
  dateText (cleanEdtf r) = true /\
  match format r with
  | YYYY => List.length (cleanEdtf r) = 4%nat
  | YYYY_MM => List.length (cleanEdtf r) = 7%nat
  | YYYY_MM_DD => List.length (cleanEdtf r) = 10%nat
  end /\
  exists y m d,
    parsedFields (cleanEdtf r) (format r) = Some (y, m, d) /\
    0 <= y <= 9999 /\ 1 <= m + 1 <= 12 /\ 1 <= d <= 31.
Proof.
  intros H Hs. apply parseEdtfPart_Ok in H.
  destruct H as (Hv & Hc & _ & Hf & _).
  pose proof (valid_segment_clean _ Hv Hs) as Hd.
  rewrite Hc, Hf. split; [ exact Hd |]. split.
  - pose proof (formatOf_length (remove_all modifierOrSpace (stripped this edtfPart)))
      as (F4 & F7 & F10).
    pose proof (dateText_length _ Hd) as L.
    destruct (formatOf _); [ now apply F4 | now apply F7 |].
    destruct (proj1 F10 eq_refl). lia.
  - destruct (dateText_parsed _ Hd) as (y & m & d & E & Hy & Hm & Hdd & _).
    exists y, m, d. repeat split; try assumption; lia.
Qed.

Lemma parsed_clean_text_witness :
  match parseEdtfPart sampleConverter (js " [.. ~1930-05 ]") with
  | Ok r => dateText (cleanEdtf r) = true /\ format r = YYYY_MM
  | Throw _ => False
  end.
Proof.
  destruct (parseEdtfPart sampleConverter (js " [.. ~1930-05 ]")) as [r | e] eqn:P;
    pose proof P as Q; vm_compute in Q; [ injection Q as <- | discriminate Q ].
  split; [| reflexivity ].
  apply (parsed_clean_text sampleConverter (js " [.. ~1930-05 ]") _ P).
  vm_compute. intuition discriminate.
Defined.

(** X7: a segment without [/] that is parsed as not approximate resolves to
    two valid moments exactly when its day exists in its month (always, for
    the formats YYYY and YYYY-MM); otherwise both moments are invalid.  When
    they are valid they are in order. *)
Theorem plain_segment_validity
    (this : Converter) (edtfPart : jsstring) (r : IEdtfPartResult) :
  parseEdtfPart this edtfPart = Ok r ->
  ~ In (ch "/") (stripped this edtfPart) ->
  isApproximate r = false ->
  exists y m d,
    parsedFields (cleanEdtf r) (format r) = Some (y, m, d) /\
    (format r <> YYYY_MM_DD -> d <= daysInMonth y m) /\
    (isValid (minDate r) = true <-> d <= daysInMonth y m) /\
    (isValid (maxDate r) = true <-> d <= daysInMonth y m) /\
    (d <= daysInMonth y m -> Moment.le (minDate r) (maxDate r)).
Proof.
  intros H Hs Ha.
  destruct (existing_date_resolves this edtfPart r H Hs Ha)
    as (y & m & d & E & Hex & Hno).
  exists y, m, d. split; [ exact E |].
  apply parseEdtfPart_Ok in H. destruct H as (Hv & Hc & _ & Hf & _).
  pose proof (valid_segment_clean _ Hv Hs) as Hd.
  destruct (dateText_parsed _ Hd) as (y' & m' & d' & E' & _ & Hm & _ & F4 & F7).
  rewrite Hc, Hf in E. rewrite E in E'. injection E' as <- <- <-.
  pose proof (daysInMonth_bounds y m Hm) as Hb.
  split; [| split; [| split ] ].
  - rewrite Hf. intro Hne.
    destruct (formatOf _) eqn:F; [ destruct (F4 eq_refl) | pose proof (F7 eq_refl) | ];
      try lia. congruence.
  - split.
    + intro V. destruct (Z_le_gt_dec d (daysInMonth y m)) as [Hle | Hgt]; [ exact Hle |].
      destruct (Hno ltac:(lia)) as [Emin _]. rewrite Emin in V. discriminate.
    + intro Hle. now destruct (Hex Hle).
  - split.
    + intro V. destruct (Z_le_gt_dec d (daysInMonth y m)) as [Hle | Hgt]; [ exact Hle |].
      destruct (Hno ltac:(lia)) as [_ Emax]. rewrite Emax in V. discriminate.
    + intro Hle. now destruct (Hex Hle) as (_ & ? & _).
  - intro Hle. now destruct (Hex Hle) as (_ & _ & ?).
Qed.

Lemma plain_segment_validity_witness :
  match parseEdtfPart sampleConverter (js "1932-02-29") with
  | Ok r => isValid (minDate r) = true
  | Throw _ => False
  end.
Proof.
  destruct (parseEdtfPart sampleConverter (js "1932-02-29")) as [r | e] eqn:P;
    pose proof P as Q; vm_compute in Q; [ injection Q as <- | discriminate Q ].
  destruct (plain_segment_validity sampleConverter (js "1932-02-29") _ P)
    as (y & m & d & E & _ & Hmin & _).
  - vm_compute. intuition discriminate.
  - reflexivity.
  - apply Hmin. vm_compute in E. injection E as <- <- <-. vm_compute. discriminate.
Defined.

(** X8: an approximate segment in the format YYYY, for the year [y] and the
    variance [v] of years, ranges from the first millisecond of January 1st
    of the year [y - v] to the last of December 31st of the year [y + v],
    when these two moments are valid. *)
Theorem approximate_year_segment
    (this : Converter) (edtfPart : jsstring) (r : IEdtfPartResult) (a b : DateTime) :
  parseEdtfPart this edtfPart = Ok r ->
  isApproximate r = true ->
  format r = YYYY ->
  minDate r = At a -> maxDate r = At b ->
  exists y,
    parsedFields (cleanEdtf r) YYYY = Some (y, 0, 1) /\
    a = mkDateTime (y - years (approximateVariance (options this))) 0 1 0 /\
    b = mkDateTime (y + years (approximateVariance (options this))) 11 31 86399999.
Proof.
  intros H Ha Hy Emin Emax. apply parseEdtfPart_Ok in H.
  destruct H as (Hv & Hc & _ & Hf & _ & _ & _ & _ & Hmax & Hmin).
  rewrite Ha in Hmax, Hmin. rewrite Hf in Hy. rewrite Hy in Hmax, Hmin.
  pose proof (clean_year_text _ Hv Hy) as Hd.
  destruct (dateText_utc _ Hd) as (y & m & d & E & Ry & Rm & Rd & U).
  destruct (dateText_parsed _ Hd) as (y' & m' & d' & E' & _ & _ & _ & F4 & _).
  rewrite E in E'. injection E' as <- <- <-. destruct (F4 Hy) as [-> ->].
  rewrite Hy in E, U. rewrite (daysInMonth_table y 0) in U by lia. simpl in U.
  rewrite U in Hmax, Hmin. simpl unitOf in *. simpl varianceOf in *.
  rewrite Emin in Hmin. rewrite Emax in Hmax.
  exists y. rewrite Hc. split; [ exact E |].
  exact (approximate_year_window y _ a b (eq_sym Hmin) (eq_sym Hmax)).
Qed.

Lemma approximate_year_segment_witness :
  match parseEdtfPart sampleConverter (js "~1930") with
  | Ok r => minDate r = At (mkDateTime 1927 0 1 0) /\
            maxDate r = At (mkDateTime 1933 11 31 86399999)
  | Throw _ => False
  end.
Proof.
  destruct (parseEdtfPart sampleConverter (js "~1930")) as [r | e] eqn:P;
    pose proof P as Q; vm_compute in Q; [ injection Q as <- | discriminate Q ].
  split; [ reflexivity |].
  destruct (approximate_year_segment sampleConverter (js "~1930") _
              (mkDateTime 1927 0 1 0) (mkDateTime 1933 11 31 86399999)
              P eq_refl eq_refl eq_refl eq_refl) as (y & _ & _ & Eb).
  reflexivity.
Defined.

(** X9: an approximate segment in the format YYYY-MM, for the month [m] (from
    0) of the year [y] and the variance [v] of months, ranges from the first
    millisecond of the month [m - v] to the last millisecond of the last day
    of the month [m + v], the months being counted on from year [y], when
    these two moments are valid. *)
Theorem approximate_month_segment
    (this : Converter) (edtfPart : jsstring) (r : IEdtfPartResult) (a b : DateTime) :
  parseEdtfPart this edtfPart = Ok r ->
  isApproximate r = true ->
  format r = YYYY_MM ->
  minDate r = At a -> maxDate r = At b ->
  let v := months (approximateVariance (options this)) in
  exists y m,
    parsedFields (cleanEdtf r) YYYY_MM = Some (y, m, 1) /\
    a = mkDateTime (y + (m - v) / 12) ((m - v) mod 12) 1 0 /\
    b = mkDateTime (y + (m + v) / 12) ((m + v) mod 12)
                   (daysInMonth y (m + v)) 86399999.
Proof.
  intros H Ha Hy Emin Emax v. apply parseEdtfPart_Ok in H.
  destruct H as (Hv & Hc & _ & Hf & _ & _ & _ & _ & Hmax & Hmin).
  rewrite Ha in Hmax, Hmin. rewrite Hf in Hy. rewrite Hy in Hmax, Hmin.
  pose proof (clean_month_text _ Hv Hy) as Hd.
  destruct (dateText_utc _ Hd) as (y & m & d & E & Ry & Rm & Rd & U).
  destruct (dateText_parsed _ Hd) as (y' & m' & d' & E' & _ & _ & _ & _ & F7).
  rewrite E in E'. injection E' as <- <- <-. rewrite (F7 Hy) in *.
  rewrite Hy in E, U.
  pose proof (daysInMonth_bounds y m Rm) as Hb.
  replace (daysInMonth y m <? 1) with false in U by (symmetry; apply Z.ltb_ge; lia).
  rewrite U in Hmax, Hmin. simpl unitOf in *. simpl varianceOf in *.
  rewrite Emin in Hmin. rewrite Emax in Hmax.
  exists y, m. rewrite Hc. split; [ exact E |].
  exact (approximate_month_window y m _ a b Rm (eq_sym Hmin) (eq_sym Hmax)).
Qed.

Lemma approximate_month_segment_witness :
  match parseEdtfPart sampleConverter (js "~1930-01") with
  | Ok r => minDate r = At (mkDateTime 1929 9 1 0) /\
            maxDate r = At (mkDateTime 1930 3 30 86399999)
  | Throw _ => False
  end.
Proof.
  destruct (parseEdtfPart sampleConverter (js "~1930-01")) as [r | e] eqn:P;
    pose proof P as Q; vm_compute in Q; [ injection Q as <- | discriminate Q ].
  split; [ reflexivity |].
  destruct (approximate_month_segment sampleConverter (js "~1930-01") _
              (mkDateTime 1929 9 1 0) (mkDateTime 1930 3 30 86399999)
              P eq_refl eq_refl eq_refl eq_refl) as (y & m & _ & _ & Eb).
  reflexivity.
Defined.

(** X10: an approximate segment in the format YYYY-MM-DD, with the variance
    [v] of days, ranges from the first millisecond of the day [v] days
    before the date to the last millisecond of the day [v] days after it:
    [2 v + 1] whole days, when the two moments are valid. *)
Theorem approximate_day_segment
    (this : Converter) (edtfPart : jsstring) (r : IEdtfPartResult) (a b : DateTime) :
  parseEdtfPart this edtfPart = Ok r ->
  ~ In (ch "/") (stripped this edtfPart) ->
  isApproximate r = true ->
  format r = YYYY_MM_DD ->
  minDate r = At a -> maxDate r = At b ->
  let v := days (approximateVariance (options this)) in
  exists y m d,
    parsedFields (cleanEdtf r) YYYY_MM_DD = Some (y, m, d) /\
    timeValue a = timeValue (mkDateTime y m d 0) - v * msPerDay /\
    timeValue b = timeValue (mkDateTime y m d 0) + v * msPerDay + (msPerDay - 1) /\
    timeValue b - timeValue a + 1 = (2 * v + 1) * msPerDay.
Proof.
  intros H Hs Ha Hy Emin Emax v. apply parseEdtfPart_Ok in H.
  destruct H as (Hv & Hc & _ & Hf & _ & _ & _ & _ & Hmax & Hmin).
  rewrite Ha in Hmax, Hmin. rewrite Hf in Hy. rewrite Hy in Hmax, Hmin.
  pose proof (valid_segment_clean _ Hv Hs) as Hd.
  destruct (dateText_utc _ Hd) as (y & m & d & E & Ry & Rm & Rd & U).
  rewrite Hy in E, U. simpl unitOf in *. simpl varianceOf in *.
  rewrite Emin in Hmin. rewrite Emax in Hmax.
  destruct (daysInMonth y m <? d) eqn:Ed.
  { rewrite U in Hmin. discriminate. }
  apply Z.ltb_ge in Ed. rewrite U in Hmax, Hmin.
  exists y, m, d. rewrite Hc. split; [ exact E |].
  assert (W : wellFormed (mkDateTime y m d 0))
    by (unfold wellFormed, msPerDay; simpl; lia).
  destruct (approximate_day_window _ a b _ W eq_refl (eq_sym Hmin) (eq_sym Hmax))
    as [Ta Tb].
  fold v in Ta, Tb. split; [ exact Ta |]. split; [ exact Tb |].
  unfold msPerDay in *. lia.
Qed.

Lemma approximate_day_segment_witness :
  match parseEdtfPart sampleConverter (js "~1930-05-03") with
  | Ok r =>
      match minDate r, maxDate r with
      | At a, At b => timeValue b - timeValue a + 1 = 7 * msPerDay
      | _, _ => False
      end
  | Throw _ => False
  end.
Proof.
  destruct (parseEdtfPart sampleConverter (js "~1930-05-03")) as [r | e] eqn:P;
    pose proof P as Q; vm_compute in Q; [ injection Q as <- | discriminate Q ].
  cbn [minDate maxDate].
  assert (S : ~ In (ch "/") (stripped sampleConverter (js "~1930-05-03")))
    by (vm_compute; intuition discriminate).
  destruct (approximate_day_segment sampleConverter (js "~1930-05-03") _
              (mkDateTime 1930 3 30 0) (mkDateTime 1930 4 6 86399999)
              P S eq_refl eq_refl eq_refl eq_refl)
    as (y & m & d & _ & _ & _ & H).
  exact H.
Defined.

(** X11: without custom modifiers, a white-space character in front of a
    segment that is parsed gives a segment that is parsed to the same
    result, but for [hasOpenStart], which is not set: the open start is
    looked for at the very first character. *)
Theorem leading_space_clears_open_start
    (this : Converter) (c : jschar) (edtfPart : jsstring) (r : IEdtfPartResult) :
  customModifiers (options this) = [] ->
  white_space c = true ->
  parseEdtfPart this edtfPart = Ok r ->
  parseEdtfPart this (c :: edtfPart) = Ok (withOpenStart false r).
Proof.
  intros Hm Hc H.
  assert (K : remove_all modifierOrSpace (c :: edtfPart)
              = remove_all modifierOrSpace edtfPart).
  { unfold remove_all, modifierOrSpace, either. simpl.
    now rewrite Hc, orb_true_r. }
  unfold parseEdtfPart, detectCustomModifiers in *. rewrite Hm in *.
  cbn [fold_left] in *. unfold validateEdtfPart in *.
  destruct (test edtfRegex edtfPart) eqn:V; cbn [bind] in H; [| discriminate ].
  rewrite (valid_after_space c edtfPart Hc V). cbn [bind].
  destruct (flags_after_space c edtfPart Hc) as (-> & -> & -> & ->).
  rewrite K. injection H as <-. reflexivity.
Qed.

Lemma leading_space_clears_open_start_witness :
  match parseEdtfPart sampleConverter (js "[..1930]") with
  | Ok r =>
      hasOpenStart r = true /\
      parseEdtfPart sampleConverter (js " [..1930]") = Ok (withOpenStart false r)
  | Throw _ => False
  end.
Proof.
  destruct (parseEdtfPart sampleConverter (js "[..1930]")) as [r | e] eqn:P.
  - split.
    + vm_compute in P. now injection P as <-.
    + apply (leading_space_clears_open_start sampleConverter (ch " ") (js "[..1930]"));
        [ reflexivity | reflexivity | exact P ].
  - vm_compute in P. discriminate P.
Defined.

(** X12: the custom modifiers are tried in their order, each on the text that
    the ones before it have left: parsing with a first modifier that
    matches is parsing what it leaves with the other modifiers, and
    recording it first; with a first modifier that does not match, it is
    parsing with the other modifiers. *)
Theorem custom_modifiers_in_turn
    (this : Converter) (m : ICustomModifier) (mods : list ICustomModifier)
    (edtfPart : jsstring) :
  parseEdtfPart (withModifiers (m :: mods) this) edtfPart =
  if modifierRegex m edtfPart
  then bind (parseEdtfPart (withModifiers mods this) (removeModifierFn m edtfPart))
            (fun r => Ok (withDetected (m :: detectedModifiers r) r))
  else parseEdtfPart (withModifiers mods this) edtfPart.
Proof.
  unfold parseEdtfPart. simpl customModifiers. rewrite detect_cons.
  destruct (modifierRegex m edtfPart); [| reflexivity ].
  destruct (detectCustomModifiers mods (removeModifierFn m edtfPart))
    as [detected part]. simpl.
  destruct (validateEdtfPart part); reflexivity.
Qed.

(** A text with the custom marker [c.] is parsed as the text without it. *)
Example custom_modifier_circa :
  match parseEdtfPart (withModifiers [circa] sampleConverter) (js "c.1930?") with
  | Ok r => List.map keyword (detectedModifiers r) = [js "circa"] /\
            cleanEdtf r = js "1930" /\ isUncertain r = true
  | Throw _ => False
  end.
Proof. vm_compute. repeat split. Qed.

(** ** validateEdtf and validateEdtfPart *)

(** X13: [validateEdtf] looks at the first two pieces of the text only:
    whatever follows a second [/] does not change its result. *)
Theorem validateEdtf_after_second_separator (first second later : jsstring) :
  ~ In (ch "/") first -> ~ In (ch "/") second ->
  validateEdtf (first ++ js "/" ++ second ++ js "/" ++ later)
  = validateEdtf (first ++ js "/" ++ second).
Proof. apply validateEdtf_two_pieces. Qed.

Lemma validateEdtf_after_second_separator_witness :
  validateEdtf (js "1930" ++ js "/" ++ js "1935" ++ js "/" ++ js "not a date")
  = Ok tt.
Proof.
  rewrite (validateEdtf_after_second_separator (js "1930") (js "1935") (js "not a date")).
  - vm_compute. reflexivity.
  - vm_compute. intuition discriminate.
  - vm_compute. intuition discriminate.
Defined.

(** X14: in a text that [validateEdtf] accepts, the first piece, and the
    second piece when there is one and it is not empty, hold once cleaned a
    date whose year is from 0 to 9999, whose month is from 1 to 12 and whose
    day is from 1 to 31. *)
Theorem validateEdtf_fields_in_range (edtf piece : jsstring) :
  validateEdtf edtf = Ok tt ->
  piece = fst (split (ch "/") edtf) \/
  (hd_error (snd (split (ch "/") edtf)) = Some piece /\ piece <> []) ->
  let clean := remove_all modifierOrSpace piece in
  exists y m d,
    parsedFields clean (formatOf clean) = Some (y, m, d) /\
    0 <= y <= 9999 /\ 1 <= m + 1 <= 12 /\ 1 <= d <= 31.
Proof. apply validateEdtf_checked_pieces. Qed.

Lemma validateEdtf_fields_in_range_witness :
  exists y m d,
    parsedFields (js "1935-12-31") YYYY_MM_DD = Some (y, m, d) /\
    0 <= y <= 9999 /\ 1 <= m + 1 <= 12 /\ 1 <= d <= 31.
Proof.
  apply (validateEdtf_fields_in_range (js "~1930/ 1935-12-31 ?") (js " 1935-12-31 ?")).
  - vm_compute. reflexivity.
  - right. split; [ reflexivity | discriminate ].
Defined.

(** X15: a text made of digits and hyphens only passes the grammar exactly
    when it is four digits, or four digits and [-MM] with MM from 01 to 12,
    or these and [-DD] with DD matching [[0-2][1-9]] or [3[0-1]]. *)
Theorem bare_date_accepted_iff (s : jsstring) :
  forallb dateChar s = true ->
  (validateEdtfPart s = Ok tt <-> dateText s = true).
Proof.
  intro C. rewrite validateEdtfPart_Ok. split.
  - intro H. rewrite forallb_forall in C.
    assert (K : remove_all modifierOrSpace s = s).
    { apply remove_all_kept. apply forallb_forall. intros c Hc.
      now rewrite (dateChar_kept c (C c Hc)). }
    rewrite <- K. apply valid_segment_clean; [ exact H |].
    intro Hin. exact (dateChar_not_slash _ (C _ Hin) eq_refl).
  - apply dateText_valid.
Qed.

Lemma bare_date_accepted_iff_witness :
  validateEdtfPart (js "1930-12-31") = Ok tt /\
  validateEdtfPart (js "1930-12-310") <> Ok tt.
Proof.
  split.
  - apply (proj2 (bare_date_accepted_iff (js "1930-12-31") eq_refl)). reflexivity.
  - intro H.
    apply (proj1 (bare_date_accepted_iff (js "1930-12-310") eq_refl)) in H.
    discriminate H.
Defined.

(** ** edtfToDate *)

(** X16: [edtfToDate] does not compare the two sides of an interval: for two
    year texts, the first of a later year than the second, without custom
    modifiers, it returns January 1st of the first year as [min] and
    December 31st of the second year as [max], which is before [min]. *)
Theorem interval_order_not_checked
    (this : Converter) (first second : jsstring) (y1 y2 : Z) :
  customModifiers (options this) = [] ->
  dateText first = true -> dateText second = true ->
  parsedFields first YYYY = Some (y1, 0, 1) ->
  parsedFields second YYYY = Some (y2, 0, 1) ->
  y2 < y1 ->
  edtfToDate this (first ++ js "/" ++ second) =
    Ok {| min := Some (At (mkDateTime y1 0 1 0));
          max := Some (At (mkDateTime y2 11 31 86399999)) |} /\
  timeValue (mkDateTime y2 11 31 86399999) < timeValue (mkDateTime y1 0 1 0).
Proof.
  intros Hm D1 D2 P1 P2 Hlt.
  assert (U : forall d, untouched this d)
    by (intro d; unfold untouched; rewrite Hm; constructor).
  assert (F : forall d y, dateText d = true -> parsedFields d YYYY = Some (y, 0, 1) ->
                          formatOf d = YYYY /\ 0 <= y <= 9999).
  { intros d y Hd Hp.
    destruct d as [| a1 [| a2 [| a3 [| a4 [| x d]]]]]; try discriminate Hp.
    split; [ reflexivity |].
    destruct (dateText_parsed _ Hd) as (y' & m' & d' & E & Hy & _).
    change (formatOf [a1; a2; a3; a4]) with YYYY in E. rewrite Hp in E.
    now injection E as <- _ _. }
  destruct (F _ _ D1 P1) as [F1 R1]. destruct (F _ _ D2 P2) as [F2 R2].
  assert (M : forall d y, parsedFields d YYYY = Some (y, 0, 1) -> 0 <= y <= 9999 ->
                          startOf year (utc d YYYY) = At (mkDateTime y 0 1 0) /\
                          endOf year (utc d YYYY) = At (mkDateTime y 11 31 86399999)).
  { intros d y Hp Hy. unfold utc, overflows. rewrite Hp.
    rewrite (daysInMonth_table y 0) by lia. simpl.
    rewrite (timeClip_range y 0 1 0) by (unfold msPerDay; lia). simpl.
    rewrite (timeClip_range y 0 1 0) by (unfold msPerDay; lia).
    change (msPerDay - 1) with 86399999.
    rewrite (timeClip_range y 11 31 86399999) by (unfold msPerDay; lia).
    split; reflexivity. }
  destruct (M _ _ P1 R1) as [S1 _]. destruct (M _ _ P2 R2) as [_ E2].
  split.
  - unfold edtfToDate, parseEdtf. change (js "/" ++ second) with (ch "/" :: second).
    rewrite split_app by (apply dateText_kept; exact D1).
    rewrite split_no_separator by (apply dateText_kept; exact D2).
    cbn [fst snd mapM].
    rewrite (parse_dateText this first (U first) D1).
    rewrite (parse_dateText this second (U second) D2).
    cbn [bind hd_error]. unfold combine.
    cbn [primaryPart secondaryPart hasOpenStart hasOpenEnd minDate maxDate].
    rewrite F1, F2. cbn [unitOf]. now rewrite S1, E2.
  - unfold timeValue; cbn [utcFullYear utcMonth utcDate utcTime].
    rewrite !MakeDay_inrange by lia. cbn [daysBeforeMonth].
    pose proof (DayFromYear_lt y2 y1 Hlt) as H. rewrite DayFromYear_next in H.
    unfold msPerDay. destruct (isLeapYear y2); lia.
Qed.

Lemma interval_order_not_checked_witness :
  edtfToDate sampleConverter (js "1935/1930") =
    Ok {| min := Some (At (mkDateTime 1935 0 1 0));
          max := Some (At (mkDateTime 1930 11 31 86399999)) |}.
Proof.
  apply (interval_order_not_checked sampleConverter (js "1935") (js "1930") 1935 1930);
    [ reflexivity | reflexivity | reflexivity | reflexivity | reflexivity | lia ].
Defined.

(** ** The locale merge *)

(** X17: the merge of two keyword lists holds no entry twice and no empty
    entry, and holds exactly the non-empty entries of the two lists: the
    order of the two packs changes the order of the merged entries, not the
    entries. *)
Theorem locale_merge_entries (xs ys : list jsstring) :
  exists merged,
    localeCustomizer (strings xs) (strings ys) = strings merged /\
    NoDup merged /\
    (forall x, In x merged <-> x <> [] /\ (In x xs \/ In x ys)) /\
    (forall x, In (JsString x) (itemsOf (localeCustomizer (strings ys) (strings xs)))
               <-> In x merged).
Proof.
  assert (M : forall xs ys x,
             In x (interleaved xs ys) <-> x <> [] /\ (In x xs \/ In x ys)).
  { intros l1 l2 x. unfold interleaved, firstSeen.
    rewrite firstSeenFrom_In, filter_In, interleave_In, nonEmpty_iff. simpl. tauto. }
  exists (interleaved xs ys). split; [ apply localeCustomizer_strings |].
  split; [ apply firstSeenFrom_NoDup |]. split; [ apply M |].
  intro x. rewrite localeCustomizer_strings. unfold strings, itemsOf.
  rewrite in_map_iff. split.
  - intros (y & E & Hin). injection E as ->. apply M. apply M in Hin. tauto.
  - intro Hin. exists x. split; [ reflexivity |]. apply M. apply M in Hin. tauto.
Qed.

(** X18: the first entry of the list already merged, when it is not empty,
    stays the first entry of the merge: the pack merged first has
    priority. *)
Theorem locale_merge_priority (x : jsstring) (xs ys : list jsstring) :
  x <> [] ->
  exists rest,
    localeCustomizer (strings (x :: xs)) (strings ys) = strings (x :: rest).
Proof.
  intro Hx. rewrite localeCustomizer_strings.
  unfold interleaved, firstSeen.
  assert (E : exists l, interleave (x :: xs) ys = x :: l)
    by (destruct ys; simpl; eauto).
  destruct E as (l & ->). simpl.
  apply nonEmpty_iff in Hx. rewrite Hx. simpl. eauto.
Qed.

Lemma locale_merge_priority_witness :
  exists rest,
    localeCustomizer (strings [js "to"; js "until"]) (strings [js "jusque"; js "to"])
    = strings (js "to" :: rest).
Proof.
  apply (locale_merge_priority (js "to") [js "until"] [js "jusque"; js "to"]).
  discriminate.
Defined.

(** X19: the merge of two packs whose keys are each written once, key by
    key: a key that the second pack does not have keeps the value of the
    first pack; a key of the second pack gets the customizer's value for
    the two values, or the second pack's value when the customizer gives
    none (as for a key that the first pack does not have). *)
Theorem locale_merge_two_packs (pack1 pack2 : JsObject) (key : jsstring) :
  NoDup (keys pack1) -> NoDup (keys pack2) ->
  get (mergeLocales [pack1; pack2]) key =
    if includes (keys pack2) key
    then if isUndefined (localeCustomizer (get pack1 key) (get pack2 key))
         then get pack2 key
         else localeCustomizer (get pack1 key) (get pack2 key)
    else get pack1 key.
Proof.
  intros N1 N2.
  assert (E1 : get (mergeSource localeCustomizer [] pack1) key = get pack1 key).
  { destruct (includes (keys pack1) key) eqn:I.
    - apply existsb_jsstring in I. rewrite mergeSource_key by assumption.
      simpl. now destruct (get pack1 key).
    - assert (~ In key (keys pack1))
        by (intro H; apply existsb_jsstring in H; unfold includes in I; congruence).
      rewrite mergeSource_other by assumption. simpl. now rewrite get_absent. }
  change (mergeLocales [pack1; pack2])
    with (mergeSource localeCustomizer (mergeSource localeCustomizer [] pack1) pack2).
  destruct (includes (keys pack2) key) eqn:I.
  - apply existsb_jsstring in I. rewrite mergeSource_key by assumption.
    now rewrite E1.
  - assert (~ In key (keys pack2))
      by (intro H; apply existsb_jsstring in H; unfold includes in I; congruence).
    rewrite mergeSource_other by assumption. exact E1.
Qed.

Lemma locale_merge_two_packs_witness :
  get (mergeLocales [[(js "uncertain", strings [js "maybe"])];
                     [(js "approximate", strings [js "vers"])]])
      (js "uncertain")
  = strings [js "maybe"].
Proof.
  etransitivity.
  - apply (locale_merge_two_packs
             [(js "uncertain", strings [js "maybe"])]
             [(js "approximate", strings [js "vers"])] (js "uncertain"));
      repeat constructor; simpl; tauto.
  - reflexivity.
Defined.

(** ** textToEdtf *)

(** X20: when none of the words of the text, the first and the last apart,
    is a delimiter, [textToEdtf] is one call of [parseWords] on all the
    words and adds no [/]; a hyphen as first or as last word is not a
    delimiter. *)
Theorem textToEdtf_without_delimiter
    (preprocessText : jsstring -> jsstring) (parseWords : list jsstring -> jsstring)
    (this : Converter) (input : jsstring) :
  Forall (fun word => includes (intervalDelimiters this) word = false)
         (interior (splitWords (preprocessText input))) ->
  textToEdtf preprocessText parseWords this input
  = parseWords (splitWords (preprocessText input)).
Proof.
  intro H. unfold textToEdtf. now rewrite (findIndex_none _ _ H).
Qed.

Lemma textToEdtf_without_delimiter_witness :
  textToEdtf (fun s => s) firstWord sampleConverter (js "- 1930") = js "-".
Proof.
  rewrite (textToEdtf_without_delimiter (fun s => s) firstWord sampleConverter (js "- 1930")).
  - reflexivity.
  - vm_compute. constructor.
Defined.

(** X21: when the words of the text are some words, then a delimiter, then
    some words, with at least one word on each side and no delimiter among
    the words before it but the first, [textToEdtf] is [parseWords] of the
    words before the delimiter, [/], and [parseWords] of the words after
    it: the first delimiter inside the text splits it. *)
Theorem textToEdtf_with_delimiter
    (preprocessText : jsstring -> jsstring) (parseWords : list jsstring -> jsstring)
    (this : Converter) (input first delimiter last : jsstring)
    (start after : list jsstring) :
  splitWords (preprocessText input)
    = (first :: start) ++ delimiter :: after ++ [last] ->
  includes (intervalDelimiters this) delimiter = true ->
  Forall (fun word => includes (intervalDelimiters this) word = false) start ->
  textToEdtf preprocessText parseWords this input
  = parseWords (first :: start) ++ js "/" ++ parseWords (after ++ [last]).
Proof.
  intros E Hd Hs. unfold textToEdtf. rewrite E, interior_around.
  rewrite (findIndex_first _ start after delimiter Hs Hd).
  change (S (List.length start)) with (List.length (first :: start)).
  rewrite firstn_app, firstn_all, Nat.sub_diag. cbn [firstn]. rewrite app_nil_r.
  replace (S (List.length (first :: start)))
    with (List.length ((first :: start) ++ [delimiter]))
    by (rewrite length_app; simpl; lia).
  change ((first :: start) ++ delimiter :: after ++ [last])
    with ((first :: start) ++ [delimiter] ++ after ++ [last]).
  rewrite app_assoc, skipn_app, skipn_all, Nat.sub_diag. cbn [skipn app].
  destruct (after ++ [last]) eqn:A; [ now destruct after | reflexivity ].
Qed.

Lemma textToEdtf_with_delimiter_witness :
  textToEdtf (fun s => s) firstWord sampleConverter (js "1930 to about 1935")
  = js "1930/about".
Proof.
  rewrite (textToEdtf_with_delimiter (fun s => s) firstWord sampleConverter
             (js "1930 to about 1935") (js "1930") (js "to") (js "1935")
             [] [js "about"]).
  - reflexivity.
  - reflexivity.
  - reflexivity.
  - constructor.
Defined.

(** ** edtfToText *)


